(** * Arduino-ChangeLimiter: a shallow embedding of [src/change_limiter.h]

    The header declares two classes.  [ChangeLimiter] moves a tracked value
    towards a target by at most [max_rising_] upwards and [max_falling_]
    downwards per update; [AbsChangeLimiter] derives from it, re-declares
    [set_limit] and [output], and treats the limits as magnitudes: the value
    first falls to zero and then rises to the target when both have different
    signs.

    The C++ types are [bool], [int], [unsigned int] and [unsigned long].  Their
    widths depend on the board, so the development is parametric in a
    [Platform]; integers are [Z] with the wrap-around of each operation written
    out. *)

From Stdlib Require Import ZArith Lia List Bool.
Import ListNotations.
Local Open Scope Z_scope.

(** ** Platforms and machine arithmetic *)

Record Platform : Type := mkPlatform {
  int_bits : Z;   (* width of [int] and [unsigned int] *)
  long_bits : Z   (* width of [unsigned long] *)
}.

(** Classic AVR boards (Uno, Mega, ...): 16-bit [int], 32-bit [long]. *)
Definition avr : Platform := mkPlatform 16 32.

(** 32-bit boards (SAMD, ESP32, ...): 32-bit [int], 32-bit [long]. *)
Definition arm32 : Platform := mkPlatform 32 32.

(** What the C++ standard guarantees about the two widths. *)
Definition wf_platform (p : Platform) : Prop :=
  16 <= int_bits p /\ 32 <= long_bits p /\ int_bits p <= long_bits p.

Section Machine.
Variable p : Platform.

Definition int_min : Z := - 2 ^ (int_bits p - 1).
Definition int_max : Z := 2 ^ (int_bits p - 1) - 1.

(** [x] is a value of type [int]. *)
Definition in_int (x : Z) : Prop := int_min <= x <= int_max.

(** [x] is a value of type [unsigned int]. *)
Definition in_uint (x : Z) : Prop := 0 <= x < 2 ^ int_bits p.

(** [x] is a value of type [unsigned long]. *)
Definition in_ulong (x : Z) : Prop := 0 <= x < 2 ^ long_bits p.

(** Two's complement wrap-around of a result of type [int]. *)
Definition wrap (x : Z) : Z :=
  (x + 2 ^ (int_bits p - 1)) mod 2 ^ int_bits p - 2 ^ (int_bits p - 1).

Definition iadd (a b : Z) : Z := wrap (a + b).
Definition isub (a b : Z) : Z := wrap (a - b).
Definition imul (a b : Z) : Z := wrap (a * b).
Definition ineg (a : Z) : Z := wrap (- a).

(** [a | b] on [int]. *)
Definition ior (a b : Z) : Z := wrap (Z.lor a b).

(** [a - b] on [unsigned long]. *)
Definition ulsub (a b : Z) : Z := (a - b) mod 2 ^ long_bits p.

(** [abs] is not part of the header: it is the macro [((x)>0?(x):-(x))] of the
    Arduino core that [Arduino.h] brings in.  The negation is an [int]
    operation, so the most negative [int] is returned unchanged. *)
Definition abs (x : Z) : Z := if x >? 0 then x else ineg x.
End Machine.

(** Modelled from the spec: the helper [sign] used by [AbsChangeLimiter] is not
    declared in the header; the spec describes its values as lying in
    {-1, 0, 1}: the sign of its argument. *)
Definition sign (x : Z) : Z :=
  if x >? 0 then 1 else if x <? 0 then -1 else 0.

(** ** The object state: the seven data members of [ChangeLimiter] *)

Record state : Type := mkState {
  enabled_ : bool;
  max_falling_ : Z;
  max_rising_ : Z;
  period_ : Z;
  prev_time_ : Z;
  value_ : Z;
  target_ : Z
}.

Definition with_enabled (b : bool) (s : state) : state :=
  mkState b (max_falling_ s) (max_rising_ s) (period_ s) (prev_time_ s)
    (value_ s) (target_ s).
Definition with_limits (f r : Z) (s : state) : state :=
  mkState (enabled_ s) f r (period_ s) (prev_time_ s) (value_ s) (target_ s).
Definition with_period (x : Z) (s : state) : state :=
  mkState (enabled_ s) (max_falling_ s) (max_rising_ s) x (prev_time_ s)
    (value_ s) (target_ s).
Definition with_prev_time (x : Z) (s : state) : state :=
  mkState (enabled_ s) (max_falling_ s) (max_rising_ s) (period_ s) x
    (value_ s) (target_ s).
Definition with_value (x : Z) (s : state) : state :=
  mkState (enabled_ s) (max_falling_ s) (max_rising_ s) (period_ s)
    (prev_time_ s) x (target_ s).
Definition with_target (x : Z) (s : state) : state :=
  mkState (enabled_ s) (max_falling_ s) (max_rising_ s) (period_ s)
    (prev_time_ s) (value_ s) x.

(** An object with static storage duration on which no member function has run
    yet: C++ zero-initialises every member. *)
Definition zero_state : state := mkState false 0 0 0 0 0 0.

(** The test of the inner [if]: "is it time to update the value?" *)
Definition due (p : Platform) (ms : Z) (s : state) : bool :=
  (period_ s =? 0) || (ulsub p ms (prev_time_ s) >=? period_ s).

(** ** class ChangeLimiter *)

Module ChangeLimiter.
Section Members.
Variable p : Platform.

Definition begin (s : state) : state := mkState true 0 0 0 0 0 0.

Definition set_limit (maxFalling maxRising : Z) (s : state) : state :=
  with_limits (ineg p (abs p maxFalling)) (abs p maxRising) s.

Definition set_limit1 (maxChange : Z) (s : state) : state :=
  set_limit maxChange maxChange s.

Definition set_period (period : Z) (s : state) : state :=
  with_period period s.

Definition value (s : state) : Z := value_ s.
Definition set_value (v : Z) (s : state) : state := with_value v s.

Definition enabled (s : state) : bool := enabled_ s.
Definition set_enabled (b : bool) (s : state) : state := with_enabled b s.

Definition target_reached (s : state) : bool := value_ s =? target_ s.
Definition set_target (t : Z) (s : state) : state := with_target t s.

(** Lines 89-101: the update of [value_]. *)
Definition update (s : state) : state :=
  let delta := isub p (target_ s) (value_ s) in
  if (delta >? 0) && (delta >? max_rising_ s) then
    with_value (iadd p (value_ s) (max_rising_ s)) s
  else if (delta <? 0) && (delta <? max_falling_ s) then
    with_value (iadd p (value_ s) (max_falling_ s)) s
  else
    with_value (iadd p (value_ s) delta) s.

(** [int output(unsigned long ms)]: the returned [int] and the new state. *)
Definition output (ms : Z) (s : state) : Z * state :=
  if enabled_ s then
    let s1 := if prev_time_ s =? 0 then with_prev_time ms s else s in
    let s2 := if due p ms s1 then update (with_prev_time ms s1) else s1 in
    (value_ s2, s2)
  else
    let s1 := with_value (target_ s) s in
    (value_ s1, s1).
End Members.
End ChangeLimiter.

(** ** class AbsChangeLimiter : public ChangeLimiter *)

Module AbsChangeLimiter.
Section Members.
Variable p : Platform.

Definition set_limit (maxFalling maxRising : Z) (s : state) : state :=
  with_limits (abs p maxFalling) (abs p maxRising) s.

(** [int dir = sign(value_) | sign(target_);] *)
Definition direction (value target : Z) : Z :=
  ior p (sign value) (sign target).

(** Lines 157-188: the update of [value_]. *)
Definition update (s : state) : state :=
  let differentSigns := imul p (sign (target_ s)) (sign (value_ s)) =? -1 in
  if differentSigns then
    if abs p (value_ s) <=? max_falling_ s then
      with_value 0 s
    else
      with_value
        (isub p (value_ s) (imul p (sign (value_ s)) (max_falling_ s))) s
  else
    let delta := isub p (abs p (target_ s)) (abs p (value_ s)) in
    let dir := direction (value_ s) (target_ s) in
    if (delta >? 0) && (delta >? max_rising_ s) then
      with_value (iadd p (value_ s) (imul p dir (max_rising_ s))) s
    else if (delta <? 0) && (abs p delta >? max_falling_ s) then
      with_value (isub p (value_ s) (imul p dir (max_falling_ s))) s
    else
      with_value (iadd p (value_ s) (imul p dir delta)) s.

(** [int output(unsigned long ms)]: the returned [int] and the new state. *)
Definition output (ms : Z) (s : state) : Z * state :=
  if enabled_ s then
    let s1 := if prev_time_ s =? 0 then with_prev_time ms s else s in
    let s2 := if due p ms s1 then update (with_prev_time ms s1) else s1 in
    (value_ s2, s2)
  else
    let s1 := with_value (target_ s) s in
    (value_ s1, s1).
End Members.
End AbsChangeLimiter.

(** ** Both classes behind one interface *)

Inductive variant : Type := Step | Absolute.

Definition set_limit (p : Platform) (v : variant) : Z -> Z -> state -> state :=
  match v with
  | Step => ChangeLimiter.set_limit p
  | Absolute => AbsChangeLimiter.set_limit p
  end.

Definition update (p : Platform) (v : variant) : state -> state :=
  match v with
  | Step => ChangeLimiter.update p
  | Absolute => AbsChangeLimiter.update p
  end.

Definition output (p : Platform) (v : variant) : Z -> state -> Z * state :=
  match v with
  | Step => ChangeLimiter.output p
  | Absolute => AbsChangeLimiter.output p
  end.

(** The caller's loop: one [output] call per timestamp, oldest first.  The
    result lists the returned values and gives the final state. *)
Fixpoint run (p : Platform) (v : variant) (ts : list Z) (s : state)
  : list Z * state :=
  match ts with
  | [] => ([], s)
  | ms :: ts' =>
      let '(r, s1) := output p v ms s in
      let '(rs, s2) := run p v ts' s1 in
      (r :: rs, s2)
  end.

Definition outputs (p : Platform) (v : variant) (ts : list Z) (s : state)
  : list Z := fst (run p v ts s).

Definition final (p : Platform) (v : variant) (ts : list Z) (s : state)
  : state := snd (run p v ts s).

(** * Definitions used in the statements and proofs *)

(** Lines 77-108 and 145-195 with the update left abstract. *)
Definition gated (p : Platform) (upd : state -> state) (ms : Z) (s : state)
  : Z * state :=
  if enabled_ s then
    let s1 := if prev_time_ s =? 0 then with_prev_time ms s else s in
    let s2 := if due p ms s1 then upd (with_prev_time ms s1) else s1 in
    (value_ s2, s2)
  else (target_ s, with_value (target_ s) s).

(** [AbsChangeLimiter]'s update of the value on unbounded integers. *)
Definition abs_next (mf mr value target : Z) : Z :=
  if sign target * sign value =? -1 then
    if Z.abs value <=? mf then 0 else value - sign value * mf
  else
    let delta := Z.abs target - Z.abs value in
    let dir := Z.lor (sign value) (sign target) in
    if (delta >? 0) && (delta >? mr) then value + dir * mr
    else if (delta <? 0) && (Z.abs delta >? mf) then value - dir * mf
    else value + dir * delta.

(** [begin(); set_limit(10, 100); set_period(0); set_value(-34);
    set_target(130);] *)
Definition zero_crossing_start (p : Platform) : state :=
  ChangeLimiter.set_target 130
    (ChangeLimiter.set_value (-34)
       (ChangeLimiter.set_period 0
          (AbsChangeLimiter.set_limit p 10 100
             (ChangeLimiter.begin zero_state)))).

(** The values the scenario lists for the first [n] calls. *)
Definition zero_crossing_values (n : nat) : list Z :=
  firstn n [-24; -14; -4; 0; 100; 130] ++ repeat 130 (n - 6).

(** The states of the scenario: only the time stamp and the value vary. *)
Definition crossing (prev value : Z) : state :=
  mkState true 10 100 0 prev value 130.

(** [ceil (a / b)] for positive [b]. *)
Definition ceil_div (a b : Z) : Z := (a + b - 1) / b.

(** [min(|maxFalling|, maxRising)]. *)
Definition limit_min (s : state) : Z :=
  Z.min (Z.abs (max_falling_ s)) (max_rising_ s).

(** The number of calls the specification allows for reaching the target:
    [ceil (|target - value| / min(|maxFalling|, maxRising))]. *)
Definition claimed_bound (s : state) : Z :=
  ceil_div (Z.abs (target_ s - value_ s)) (limit_min s).

(** The test [sign(target_) * sign(value_) == -1] on the current state. *)
Definition opposite_signs (s : state) : bool :=
  sign (target_ s) * sign (value_ s) =? -1.

(** One more call for the stop at zero of the second class. *)
Definition zero_pass (v : variant) (s : state) : Z :=
  match v with
  | Step => 0
  | Absolute => if opposite_signs s then 1 else 0
  end.

(** One more call when the first call only takes the time stamp. *)
Definition first_tick (s : state) : Z :=
  if negb (period_ s =? 0) && (prev_time_ s =? 0) then 1 else 0.

(** Time stamps that increase strictly, each at least [period] after the one
    before, starting after [prev]. *)
Fixpoint well_spaced (p : Platform) (period prev : Z) (ts : list Z) : Prop :=
  match ts with
  | [] => True
  | ms :: ts' =>
      in_ulong p ms /\ prev < ms /\ period <= ms - prev /\
      well_spaced p period ms ts'
  end.

(** The caller's schedule: any time stamps when the period is 0; otherwise
    well spaced after [prev_time_], or, when [prev_time_] is still 0, a first
    nonzero time stamp followed by well spaced ones. *)
Definition schedule_ok (p : Platform) (s : state) (ts : list Z) : Prop :=
  period_ s = 0 \/
  (prev_time_ s <> 0 /\ in_ulong p (prev_time_ s) /\
   well_spaced p (period_ s) (prev_time_ s) ts) \/
  (prev_time_ s = 0 /\
   match ts with
   | [] => True
   | t0 :: ts' => 0 < t0 /\ in_ulong p t0 /\ well_spaced p (period_ s) t0 ts'
   end).

(** Configurations with both limits nonzero, as the setters leave them, and
    operands in the range where [abs] is the absolute value. *)
Definition config_ok (p : Platform) (v : variant) (s : state) : Prop :=
  match v with
  | Step =>
      in_int p (value_ s) /\ in_int p (target_ s) /\
      max_falling_ s < 0 < max_rising_ s
  | Absolute =>
      int_min p < value_ s <= int_max p /\
      int_min p < target_ s <= int_max p /\
      0 < max_falling_ s <= int_max p /\
      0 < max_rising_ s <= int_max p
  end.

(** What is left to do: the distance the class itself works with, plus one
    smallest step while the second class still has to stop at zero. *)
Definition potential (p : Platform) (v : variant) (s : state) : Z :=
  match v with
  | Step => Z.abs (isub p (target_ s) (value_ s))
  | Absolute =>
      Z.abs (target_ s - value_ s) +
      (if opposite_signs s then limit_min s else 0)
  end.

(** [begin(); set_limit(10, 10); set_period(100); set_target(25);] on the
    first class. *)
Definition paced_start (p : Platform) : state :=
  ChangeLimiter.set_target 25
    (ChangeLimiter.set_period 100
       (ChangeLimiter.set_limit p 10 10 (ChangeLimiter.begin zero_state))).

(** [begin(); set_limit(10, 10); set_value(-15); set_target(15);] on the
    second class. *)
Definition reversal_start (p : Platform) : state :=
  ChangeLimiter.set_target 15
    (ChangeLimiter.set_value (-15)
       (AbsChangeLimiter.set_limit p 10 10 (ChangeLimiter.begin zero_state))).

(** The members [output] leaves alone: everything but [value_] and
    [prev_time_]. *)
Definition configuration (s : state) : bool * Z * Z * Z * Z :=
  (enabled_ s, max_falling_ s, max_rising_ s, period_ s, target_ s).

(** The same object with value and target negated. *)
Definition mirror (s : state) : state :=
  with_target (- target_ s) (with_value (- value_ s) s).

(** The first class's update on unbounded integers: the difference clamped to
    the two limits. *)
Definition step_next (mf mr value target : Z) : Z :=
  value + Z.max mf (Z.min mr (target - value)).

Example step_doc_example :
  outputs avr Step [5; 6]
    (with_target 130 (with_value (-34)
       (ChangeLimiter.set_limit avr (-10) 100 (ChangeLimiter.begin zero_state))))
  = [66; 130].
Proof. reflexivity. Qed.

Example abs_doc_example :
  outputs avr Absolute [5; 6; 7; 8; 9; 10; 11]
    (with_target 130 (with_value (-34)
       (AbsChangeLimiter.set_limit avr 10 100 (ChangeLimiter.begin zero_state))))
  = [-24; -14; -4; 0; 100; 130; 130].
Proof. reflexivity. Qed.

(** * Facts about the machine arithmetic *)

Section MachineFacts.
Variable p : Platform.
Hypothesis Hwf : wf_platform p.

Lemma half_modulus : 2 ^ int_bits p = 2 * 2 ^ (int_bits p - 1).
Proof.
  destruct Hwf as (Hi & _).
  replace (int_bits p) with (Z.succ (int_bits p - 1)) at 1 by lia.
  rewrite Z.pow_succ_r by lia. reflexivity.
Qed.

Lemma half_modulus_large : 32768 <= 2 ^ (int_bits p - 1).
Proof.
  destruct Hwf as (Hi & _).
  change 32768 with (2 ^ 15).
  apply Z.pow_le_mono_r; lia.
Qed.

Lemma long_modulus_large : 65536 <= 2 ^ long_bits p.
Proof.
  destruct Hwf as (_ & Hl & _).
  change 65536 with (2 ^ 16).
  apply Z.pow_le_mono_r; lia.
Qed.

Lemma uint_fits_ulong : 2 ^ int_bits p <= 2 ^ long_bits p.
Proof.
  destruct Hwf as (Hi & _ & Hil).
  apply Z.pow_le_mono_r; lia.
Qed.

(** [wrap x] is the one representative of [x] modulo [2 ^ int_bits] that is
    an [int]. *)
Lemma wrap_unique (x y k : Z) :
  in_int p y -> y = x + k * 2 ^ int_bits p -> wrap p x = y.
Proof.
  unfold in_int, int_min, int_max, wrap. intros Hy ->.
  pose proof half_modulus as H2. pose proof half_modulus_large as HM.
  replace (x + k * 2 ^ int_bits p + 2 ^ (int_bits p - 1))
    with (x + 2 ^ (int_bits p - 1) + k * 2 ^ int_bits p) in * by lia.
  rewrite <- (Z.mod_add (x + 2 ^ (int_bits p - 1)) k (2 ^ int_bits p)) by lia.
  rewrite Z.mod_small; lia.
Qed.

Lemma wrap_small (x : Z) : in_int p x -> wrap p x = x.
Proof. intros Hx. apply (wrap_unique x x 0); [assumption | lia]. Qed.

Lemma wrap_in_int (x : Z) : in_int p (wrap p x).
Proof.
  unfold in_int, int_min, int_max, wrap.
  pose proof half_modulus as H2. pose proof half_modulus_large as HM.
  pose proof (Z.mod_pos_bound (x + 2 ^ (int_bits p - 1)) (2 ^ int_bits p)).
  lia.
Qed.

Lemma wrap_decompose (x : Z) :
  exists k, wrap p x = x + k * 2 ^ int_bits p.
Proof.
  exists (- ((x + 2 ^ (int_bits p - 1)) / 2 ^ int_bits p)).
  unfold wrap.
  pose proof half_modulus as H2. pose proof half_modulus_large as HM.
  rewrite Z.mod_eq by lia. lia.
Qed.

(** Wrapping never increases the magnitude. *)
Lemma wrap_abs_le (x : Z) : Z.abs (wrap p x) <= Z.abs x.
Proof.
  destruct (Z_le_dec (int_min p) x) as [Hlo|Hlo];
    [destruct (Z_le_dec x (int_max p)) as [Hhi|Hhi]|].
  - rewrite wrap_small by (split; assumption). lia.
  - pose proof (wrap_in_int x) as Hw.
    unfold in_int, int_min, int_max in *.
    pose proof half_modulus_large. lia.
  - pose proof (wrap_in_int x) as Hw.
    unfold in_int, int_min, int_max in *.
    pose proof half_modulus_large. lia.
Qed.

Lemma abs_small (x : Z) :
  int_min p < x -> x <= int_max p -> abs p x = Z.abs x.
Proof.
  intros Hlo Hhi. unfold abs, ineg.
  destruct (Z.gtb_spec x 0) as [Hx|Hx]; [lia|].
  rewrite wrap_small; [lia|].
  unfold in_int, int_min, int_max in *. lia.
Qed.

(** The one [int] without a representable absolute value. *)
Lemma abs_int_min : abs p (int_min p) = int_min p.
Proof.
  unfold abs, ineg.
  pose proof half_modulus as H2. pose proof half_modulus_large as HM.
  destruct (Z.gtb_spec (int_min p) 0) as [Hx|Hx];
    [unfold int_min in Hx; lia|].
  apply (wrap_unique _ _ (-1)); unfold in_int, int_min, int_max; lia.
Qed.

Lemma sign_cases (x : Z) :
  (x < 0 /\ sign x = -1) \/ (x = 0 /\ sign x = 0) \/ (0 < x /\ sign x = 1).
Proof.
  unfold sign.
  destruct (Z.gtb_spec x 0); destruct (Z.ltb_spec x 0); lia.
Qed.

Lemma ulsub_self (ms : Z) : ulsub p ms ms = 0.
Proof. unfold ulsub. rewrite Z.sub_diag. apply Z.mod_0_l.
  pose proof long_modulus_large. lia. Qed.

Lemma ulsub_nonneg (a b : Z) : 0 <= ulsub p a b.
Proof.
  unfold ulsub. pose proof long_modulus_large.
  pose proof (Z.mod_pos_bound (a - b) (2 ^ long_bits p)). lia.
Qed.

Lemma ulsub_forward (a b : Z) :
  in_ulong p a -> in_ulong p b -> b <= a -> ulsub p a b = a - b.
Proof.
  unfold ulsub, in_ulong. intros Ha Hb Hab.
  apply Z.mod_small. lia.
Qed.

Lemma ulsub_backward (a b : Z) :
  in_ulong p a -> in_ulong p b -> a < b ->
  ulsub p a b = a - b + 2 ^ long_bits p.
Proof.
  unfold ulsub, in_ulong. intros Ha Hb Hab.
  rewrite <- (Z.mod_add (a - b) 1 (2 ^ long_bits p)) by lia.
  rewrite Z.mul_1_l. apply Z.mod_small. lia.
Qed.
End MachineFacts.

(** * The two [output] functions share their gating *)

Lemma output_gated (p : Platform) (v : variant) (ms : Z) (s : state) :
  output p v ms s = gated p (update p v) ms s.
Proof. destruct v; reflexivity. Qed.

(** An update writes [value_] and nothing else. *)
Lemma update_frame (p : Platform) (v : variant) (s : state) :
  update p v s = with_value (value_ (update p v s)) s.
Proof.
  destruct v; simpl.
  - unfold ChangeLimiter.update.
    repeat match goal with |- context [if ?c then _ else _] => destruct c end;
      reflexivity.
  - unfold AbsChangeLimiter.update.
    repeat match goal with |- context [if ?c then _ else _] => destruct c end;
      reflexivity.
Qed.

Lemma update_prev_time (p : Platform) (v : variant) (s : state) :
  prev_time_ (update p v s) = prev_time_ s.
Proof. rewrite update_frame. reflexivity. Qed.

Lemma update_enabled (p : Platform) (v : variant) (s : state) :
  enabled_ (update p v s) = enabled_ s.
Proof. rewrite update_frame. reflexivity. Qed.

Lemma update_period (p : Platform) (v : variant) (s : state) :
  period_ (update p v s) = period_ s.
Proof. rewrite update_frame. reflexivity. Qed.

(** What [output] does when the update is due: the time stamp is taken and the
    value is updated. *)
Lemma output_due (p : Platform) (v : variant) (ms : Z) (s : state) :
  enabled_ s = true ->
  due p ms (if prev_time_ s =? 0 then with_prev_time ms s else s) = true ->
  output p v ms s =
    (value_ (update p v (with_prev_time ms s)), update p v (with_prev_time ms s)).
Proof.
  intros He Hd. rewrite output_gated. unfold gated. rewrite He.
  cbv zeta. rewrite Hd. destruct (prev_time_ s =? 0); reflexivity.
Qed.

(** What [output] does when the update is not due: at most the time stamp of
    the first call is taken. *)
Lemma output_not_due (p : Platform) (v : variant) (ms : Z) (s : state) :
  enabled_ s = true ->
  due p ms (if prev_time_ s =? 0 then with_prev_time ms s else s) = false ->
  output p v ms s =
    (value_ s, if prev_time_ s =? 0 then with_prev_time ms s else s).
Proof.
  intros He Hd. rewrite output_gated. unfold gated. rewrite He.
  cbv zeta. rewrite Hd. destruct (prev_time_ s =? 0); reflexivity.
Qed.

(** What [output] does when [enabled_] is false. *)
Lemma output_disabled (p : Platform) (v : variant) (ms : Z) (s : state) :
  enabled_ s = false ->
  output p v ms s = (target_ s, with_value (target_ s) s).
Proof.
  intros He. rewrite output_gated. unfold gated. rewrite He. reflexivity.
Qed.

(** * Bypass, gating, first call, clock steps *)

(** C4.  With [enabled_] false, [output] of either class copies [target_] into
    [value_] and returns it, whatever the time stamp, the period, the stored
    time and the limits are; no other member changes. *)
Theorem bypass_snaps_to_target (p : Platform) (v : variant) (ms : Z) (s : state) :
  enabled_ s = false ->
  output p v ms s = (target_ s, with_value (target_ s) s) /\
  value_ (snd (output p v ms s)) = target_ s.
Proof.
  intros He. rewrite (output_disabled p v ms s He). split; reflexivity.
Qed.

Lemma bypass_snaps_to_target_witness :
  let s := mkState false (-3) 7 1000 42 5 99 in
  output avr Step 43 s = (99, with_value 99 s) /\
  value_ (snd (output avr Step 43 s)) = 99.
Proof.
  exact (bypass_snaps_to_target avr Step 43
           (mkState false (-3) 7 1000 42 5 99) eq_refl).
Defined.

Section Gating.
Variable p : Platform.
Hypothesis Hwf : wf_platform p.

(** C5.  With [enabled_] true and a nonzero period, a call whose elapsed time
    [ms - prev_time_] (on [unsigned long]) is below the period returns
    [value_] as it was and leaves it unchanged, in either class; the state
    changes at most by the time stamp taken on a first call. *)
Theorem period_gating_keeps_value (v : variant) (ms : Z) (s : state) :
  enabled_ s = true ->
  period_ s <> 0 ->
  ulsub p ms (prev_time_ s) < period_ s ->
  fst (output p v ms s) = value_ s /\
  value_ (snd (output p v ms s)) = value_ s /\
  snd (output p v ms s) =
    (if prev_time_ s =? 0 then with_prev_time ms s else s).
Proof.
  intros He Hp Hlt.
  assert (Hnd : due p ms (if prev_time_ s =? 0 then with_prev_time ms s else s)
                = false).
  { pose proof (ulsub_nonneg p Hwf ms (prev_time_ s)) as Hnn.
    unfold due. destruct (Z.eqb_spec (prev_time_ s) 0) as [H0|H0]; simpl.
    - rewrite (ulsub_self p Hwf).
      destruct (Z.eqb_spec (period_ s) 0); [contradiction|]. simpl.
      rewrite Z.geb_leb; apply Z.leb_gt. lia.
    - destruct (Z.eqb_spec (period_ s) 0); [contradiction|]. simpl.
      rewrite Z.geb_leb; apply Z.leb_gt. lia. }
  rewrite (output_not_due p v ms s He Hnd). simpl.
  destruct (prev_time_ s =? 0); repeat split; reflexivity.
Qed.

(** C6.  With [enabled_] true and [prev_time_] still 0, a call with time
    stamp [ms] leaves [prev_time_ = ms]; with a nonzero period the value is
    returned unchanged, with period 0 the update runs in this very call.  A
    call at time stamp 0 therefore leaves [prev_time_] at 0, and the call
    after it is a first call again. *)
Theorem first_call_takes_time_stamp (v : variant) (ms : Z) (s : state) :
  enabled_ s = true ->
  prev_time_ s = 0 ->
  in_uint p (period_ s) ->
  prev_time_ (snd (output p v ms s)) = ms /\
  (period_ s <> 0 -> output p v ms s = (value_ s, with_prev_time ms s)) /\
  (period_ s = 0 ->
     output p v ms s = (value_ (update p v (with_prev_time ms s)),
                        update p v (with_prev_time ms s))) /\
  (ms = 0 ->
     let s' := snd (output p v ms s) in
     enabled_ s' = true /\ prev_time_ s' = 0 /\
     forall ms', prev_time_ (snd (output p v ms' s')) = ms' /\
                 (period_ s <> 0 ->
                    output p v ms' s' = (value_ s', with_prev_time ms' s'))).
Proof.
  intros He H0 Hper.
  assert (Hfirst : forall t m, enabled_ t = true -> prev_time_ t = 0 ->
             in_uint p (period_ t) ->
             prev_time_ (snd (output p v m t)) = m /\
             (period_ t <> 0 -> output p v m t = (value_ t, with_prev_time m t)) /\
             (period_ t = 0 ->
                output p v m t = (value_ (update p v (with_prev_time m t)),
                                  update p v (with_prev_time m t)))).
  { intros t m Het H0t Hpt.
    destruct (Z.eq_dec (period_ t) 0) as [Hz|Hnz].
    - assert (Hd : due p m (if prev_time_ t =? 0 then with_prev_time m t else t)
                   = true).
      { unfold due. rewrite H0t. simpl. rewrite Hz. reflexivity. }
      rewrite (output_due p v m t Het Hd). simpl.
      rewrite update_prev_time. simpl.
      split; [reflexivity | split; intros; [contradiction | reflexivity]].
    - assert (Hd : due p m (if prev_time_ t =? 0 then with_prev_time m t else t)
                   = false).
      { unfold due. rewrite H0t. simpl. rewrite (ulsub_self p Hwf).
        destruct (Z.eqb_spec (period_ t) 0); [contradiction|]. simpl.
        rewrite Z.geb_leb; apply Z.leb_gt. unfold in_uint in Hpt. lia. }
      rewrite (output_not_due p v m t Het Hd). rewrite H0t. simpl.
      split; [reflexivity | split; intros; [reflexivity | contradiction]]. }
  destruct (Hfirst s ms He H0 Hper) as (H1 & H2 & H3).
  repeat split; try assumption.
  - rewrite output_gated. unfold gated. rewrite He. cbv zeta.
    destruct (due p ms _); simpl; [rewrite update_enabled|];
      destruct (prev_time_ s =? 0); simpl; assumption.
  - rewrite H1. assumption.
  - assert (He' : enabled_ (snd (output p v ms s)) = true).
    { rewrite output_gated. unfold gated. rewrite He. cbv zeta.
      destruct (due p ms _); simpl; [rewrite update_enabled|];
        destruct (prev_time_ s =? 0); simpl; assumption. }
    assert (Hp' : period_ (snd (output p v ms s)) = period_ s).
    { rewrite output_gated. unfold gated. rewrite He. cbv zeta.
      destruct (due p ms _); simpl; [rewrite update_period|];
        destruct (prev_time_ s =? 0); reflexivity. }
    apply Hfirst; [assumption | rewrite H1; assumption | rewrite Hp'; assumption].
  - intros Hnz.
    assert (He' : enabled_ (snd (output p v ms s)) = true).
    { rewrite output_gated. unfold gated. rewrite He. cbv zeta.
      destruct (due p ms _); simpl; [rewrite update_enabled|];
        destruct (prev_time_ s =? 0); simpl; assumption. }
    assert (Hp' : period_ (snd (output p v ms s)) = period_ s).
    { rewrite output_gated. unfold gated. rewrite He. cbv zeta.
      destruct (due p ms _); simpl; [rewrite update_period|];
        destruct (prev_time_ s =? 0); reflexivity. }
    apply Hfirst; [assumption | rewrite H1; assumption
                  | rewrite Hp'; assumption | rewrite Hp'; assumption].
Qed.

(** C10.  The elapsed time is [(ms - prev_time_) mod 2 ^ long_bits].  With
    [enabled_] true, a nonzero period and a nonzero [prev_time_], a time
    stamp below [prev_time_] gives the elapsed time
    [ms - prev_time_ + 2 ^ long_bits]; when that is at least the period, the
    update runs at once and [prev_time_] becomes the smaller time stamp. *)
Theorem backwards_clock_updates (v : variant) (ms : Z) (s : state) :
  enabled_ s = true ->
  period_ s <> 0 ->
  prev_time_ s <> 0 ->
  in_ulong p ms ->
  in_ulong p (prev_time_ s) ->
  ms < prev_time_ s ->
  ulsub p ms (prev_time_ s) = (ms - prev_time_ s) mod 2 ^ long_bits p /\
  ulsub p ms (prev_time_ s) = ms - prev_time_ s + 2 ^ long_bits p /\
  (period_ s <= ms - prev_time_ s + 2 ^ long_bits p ->
     output p v ms s = (value_ (update p v (with_prev_time ms s)),
                        update p v (with_prev_time ms s)) /\
     prev_time_ (snd (output p v ms s)) = ms).
Proof.
  intros He Hp H0 Hms Hprev Hlt.
  pose proof (ulsub_backward p ms (prev_time_ s) Hms Hprev Hlt) as Hel.
  split; [reflexivity|]. split; [assumption|].
  intros Hge.
  assert (Hd : due p ms (if prev_time_ s =? 0 then with_prev_time ms s else s)
               = true).
  { destruct (Z.eqb_spec (prev_time_ s) 0); [contradiction|].
    unfold due. rewrite Hel.
    apply orb_true_iff. right. apply Z.geb_le. lia. }
  rewrite (output_due p v ms s He Hd). simpl.
  rewrite update_prev_time. split; reflexivity.
Qed.
End Gating.

Lemma period_gating_keeps_value_witness :
  let s := mkState true (-10) 100 50 1000 3 9 in
  (enabled_ s = true /\ period_ s <> 0 /\ ulsub avr 1020 (prev_time_ s) < period_ s) /\
  fst (output avr Absolute 1020 s) = 3 /\
  value_ (snd (output avr Absolute 1020 s)) = 3 /\
  snd (output avr Absolute 1020 s) = s.
Proof.
  split.
  - repeat split; try discriminate; reflexivity.
  - apply (period_gating_keeps_value avr ltac:(unfold wf_platform; simpl; lia)
             Absolute 1020 (mkState true (-10) 100 50 1000 3 9));
      [reflexivity | discriminate | reflexivity].
Defined.

Lemma first_call_takes_time_stamp_witness :
  let s := mkState true (-10) 100 50 0 3 9 in
  (enabled_ s = true /\ prev_time_ s = 0 /\ in_uint avr (period_ s)) /\
  prev_time_ (snd (output avr Step 777 s)) = 777 /\
  (period_ s <> 0 -> output avr Step 777 s = (3, with_prev_time 777 s)).
Proof.
  split.
  - repeat split; try discriminate; reflexivity.
  - pose proof (first_call_takes_time_stamp avr
                  ltac:(unfold wf_platform; simpl; lia) Step 777
                  (mkState true (-10) 100 50 0 3 9) eq_refl eq_refl
                  ltac:(unfold in_uint; simpl; lia)) as (H1 & H2 & _).
    split; [exact H1 | exact H2].
Defined.

Lemma backwards_clock_updates_witness :
  let s := mkState true (-10) 100 50 1000 3 900 in
  (enabled_ s = true /\ period_ s <> 0 /\ prev_time_ s <> 0 /\
   in_ulong avr 400 /\ in_ulong avr (prev_time_ s) /\ 400 < prev_time_ s) /\
  ulsub avr 400 (prev_time_ s) = 4294966696 /\
  output avr Step 400 s = (103, mkState true (-10) 100 50 400 103 900).
Proof.
  split.
  - repeat split; try discriminate; reflexivity.
  - pose proof (backwards_clock_updates avr Step 400
                  (mkState true (-10) 100 50 1000 3 900) eq_refl
                  ltac:(discriminate) ltac:(discriminate)
                  ltac:(unfold in_ulong; simpl; lia)
                  ltac:(unfold in_ulong; simpl; lia)
                  ltac:(simpl; lia)) as (_ & H2 & H3).
    split; [exact H2|].
    destruct (H3 ltac:(simpl; lia)) as (H4 & _).
    etransitivity; [exact H4 | vm_compute; reflexivity].
Defined.

(** * Sign conventions of the limits and of the direction *)

Section Signs.
Variable p : Platform.
Hypothesis Hwf : wf_platform p.

Lemma ineg_small (x : Z) :
  int_min p < x -> x <= int_max p -> ineg p x = - x.
Proof.
  intros Hlo Hhi. unfold ineg. apply (wrap_small p Hwf).
  unfold in_int, int_min, int_max in *. lia.
Qed.

Lemma ineg_int_min : ineg p (int_min p) = int_min p.
Proof.
  unfold ineg.
  pose proof (half_modulus p Hwf) as H2.
  pose proof (half_modulus_large p Hwf) as HM.
  apply (wrap_unique p Hwf _ _ (-1)); unfold in_int, int_min, int_max; lia.
Qed.

Lemma small_in_int (x : Z) : -32768 <= x <= 32767 -> in_int p x.
Proof.
  pose proof (half_modulus_large p Hwf).
  unfold in_int, int_min, int_max. lia.
Qed.

(** C7, amended.  [ChangeLimiter::set_limit(a, b)] stores
    [max_falling_ = -|a| <= 0] for every [int] a, whatever b is, and
    [max_rising_ = |b| >= 0] for every [int] b other than the most negative
    one; [AbsChangeLimiter::set_limit(a, b)] stores [max_falling_ = |a| >= 0]
    for every [int] a other than the most negative one and
    [max_rising_ = |b| >= 0] for every [int] b other than the most negative
    one.  In particular [set_limit(-5, -20)] stores (-5, 20) in the first class
    and (5, 20) in the second. *)
Theorem set_limit_normalizes_signs (a b : Z) (s : state) :
  in_int p a -> in_int p b ->
  (max_falling_ (set_limit p Step a b s) = - Z.abs a /\
   max_falling_ (set_limit p Step a b s) <= 0) /\
  (b <> int_min p ->
   max_rising_ (set_limit p Step a b s) = Z.abs b /\
   0 <= max_rising_ (set_limit p Step a b s)) /\
  (a <> int_min p ->
   max_falling_ (set_limit p Absolute a b s) = Z.abs a /\
   0 <= max_falling_ (set_limit p Absolute a b s)) /\
  (b <> int_min p ->
   max_rising_ (set_limit p Absolute a b s) = Z.abs b /\
   0 <= max_rising_ (set_limit p Absolute a b s)) /\
  (max_falling_ (set_limit p Step (-5) (-20) s) = -5 /\
   max_rising_ (set_limit p Step (-5) (-20) s) = 20 /\
   max_falling_ (set_limit p Absolute (-5) (-20) s) = 5 /\
   max_rising_ (set_limit p Absolute (-5) (-20) s) = 20).
Proof.
  intros Ha Hb.
  pose proof (half_modulus_large p Hwf) as HM.
  assert (Hrise : forall x, in_int p x -> x <> int_min p ->
                    abs p x = Z.abs x /\ 0 <= abs p x).
  { intros x Hx Hne. unfold in_int in Hx.
    rewrite (abs_small p Hwf) by lia. lia. }
  assert (Hfall : forall x, in_int p x ->
                    ineg p (abs p x) = - Z.abs x /\ ineg p (abs p x) <= 0).
  { intros x Hx. destruct (Z.eq_dec x (int_min p)) as [->|Hne].
    - rewrite (abs_int_min p Hwf), ineg_int_min. unfold int_min. lia.
    - unfold in_int in Hx. rewrite (abs_small p Hwf) by lia.
      rewrite ineg_small; unfold int_min, int_max in *; lia. }
  assert (H5 : in_int p (-5) /\ -5 <> int_min p)
    by (unfold in_int, int_min, int_max; lia).
  assert (H20 : in_int p (-20) /\ -20 <> int_min p)
    by (unfold in_int, int_min, int_max; lia).
  simpl.
  split; [exact (Hfall a Ha)|].
  split; [intros Hne; exact (Hrise b Hb Hne)|].
  split; [intros Hne; exact (Hrise a Ha Hne)|].
  split; [intros Hne; exact (Hrise b Hb Hne)|].
  split; [apply (Hfall (-5)), H5|].
  split; [apply (Hrise (-20)); apply H20|].
  split; [apply (Hrise (-5)); apply H5 | apply (Hrise (-20)); apply H20].
Qed.

(** C8.  In the branch of [AbsChangeLimiter::output] taken when
    [sign(target_) * sign(value_) == -1] is false, [dir] is the sign of the
    value when the value is nonzero, else the sign of the target when the
    target is nonzero, and 0 when both are zero. *)
Theorem direction_picks_nonzero_sign (value target : Z) :
  (imul p (sign target) (sign value) =? -1) = false ->
  (value <> 0 -> AbsChangeLimiter.direction p value target = sign value) /\
  (value = 0 -> target <> 0 ->
     AbsChangeLimiter.direction p value target = sign target) /\
  (value = 0 -> target = 0 -> AbsChangeLimiter.direction p value target = 0).
Proof.
  intros Hsame.
  assert (Hone : wrap p 1 = 1) by (apply (wrap_small p Hwf), small_in_int; lia).
  assert (Hzero : wrap p 0 = 0) by (apply (wrap_small p Hwf), small_in_int; lia).
  assert (Hneg : wrap p (-1) = -1)
    by (apply (wrap_small p Hwf), small_in_int; lia).
  unfold AbsChangeLimiter.direction, ior, imul in *.
  destruct (sign_cases value) as [(Hv & Hsv)|[(Hv & Hsv)|(Hv & Hsv)]];
    destruct (sign_cases target) as [(Ht & Hst)|[(Ht & Hst)|(Ht & Hst)]];
    rewrite Hsv, Hst in Hsame |- *;
    simpl in Hsame |- *; rewrite ?Hone, ?Hzero, ?Hneg in Hsame |- *;
    simpl in Hsame; try discriminate Hsame;
    repeat split; intros; try reflexivity; lia.
Qed.
End Signs.

Lemma set_limit_normalizes_signs_witness :
  (in_int avr 7 /\ in_int avr (-32768)) /\
  max_falling_ (set_limit avr Step 7 (-32768) zero_state) = -7 /\
  max_falling_ (set_limit avr Step (-32768) 7 zero_state) = -32768 /\
  max_rising_ (set_limit avr Step (-32768) 7 zero_state) = 7 /\
  max_falling_ (set_limit avr Absolute 7 (-32768) zero_state) = 7 /\
  max_rising_ (set_limit avr Absolute (-32768) 7 zero_state) = 7.
Proof.
  split.
  - unfold in_int, int_min, int_max; simpl; lia.
  - pose proof (set_limit_normalizes_signs avr
                  ltac:(unfold wf_platform; simpl; lia) 7 (-32768) zero_state
                  ltac:(unfold in_int, int_min, int_max; simpl; lia)
                  ltac:(unfold in_int, int_min, int_max; simpl; lia))
      as ((H1 & _) & _ & H3 & _).
    pose proof (set_limit_normalizes_signs avr
                  ltac:(unfold wf_platform; simpl; lia) (-32768) 7 zero_state
                  ltac:(unfold in_int, int_min, int_max; simpl; lia)
                  ltac:(unfold in_int, int_min, int_max; simpl; lia))
      as ((H4 & _) & H5 & _ & H6 & _).
    destruct (H3 ltac:(unfold int_min; simpl; lia)) as (H7 & _).
    destruct (H5 ltac:(unfold int_min; simpl; lia)) as (H8 & _).
    destruct (H6 ltac:(unfold int_min; simpl; lia)) as (H9 & _).
    split; [exact H1|]. split; [exact H4|]. split; [exact H8|].
    split; [exact H7 | exact H9].
Defined.

(** C7 as stated fails on a 16-bit board: the most negative [int] has no
    representable absolute value, [abs] returns it unchanged, and the stored
    rising limit (and, in the second class, the falling limit) is negative. *)
Lemma set_limit_int_min_counterexample :
  in_int avr (-32768) /\
  max_rising_ (set_limit avr Step 0 (-32768) zero_state) = -32768 /\
  max_falling_ (set_limit avr Absolute (-32768) 0 zero_state) = -32768 /\
  ~ (max_rising_ (set_limit avr Step 0 (-32768) zero_state) = Z.abs (-32768) /\
     0 <= max_rising_ (set_limit avr Step 0 (-32768) zero_state)) /\
  ~ (max_falling_ (set_limit avr Absolute (-32768) 0 zero_state)
       = Z.abs (-32768) /\
     0 <= max_falling_ (set_limit avr Absolute (-32768) 0 zero_state)).
Proof.
  split; [unfold in_int, int_min, int_max; simpl; lia|].
  split; [reflexivity|]. split; [reflexivity|].
  split; intros (H & _); vm_compute in H; discriminate.
Qed.

Lemma direction_picks_nonzero_sign_witness :
  (imul avr (sign 130) (sign 0) =? -1) = false /\
  AbsChangeLimiter.direction avr 0 130 = sign 130 /\
  AbsChangeLimiter.direction avr (-34) 0 = sign (-34).
Proof.
  split; [reflexivity|].
  split.
  - apply (direction_picks_nonzero_sign avr
             ltac:(unfold wf_platform; simpl; lia) 0 130 eq_refl);
      [reflexivity | discriminate].
  - apply (direction_picks_nonzero_sign avr
             ltac:(unfold wf_platform; simpl; lia) (-34) 0 eq_refl).
    discriminate.
Defined.

(** * The two updates without machine arithmetic *)

Section Updates.
Variable p : Platform.
Hypothesis Hwf : wf_platform p.

Ltac bounds :=
  pose proof (half_modulus p Hwf); pose proof (half_modulus_large p Hwf);
  unfold in_int, int_min, int_max in *.

Ltac unwrap :=
  repeat match goal with
    | |- context [wrap p ?x] =>
        rewrite (wrap_small p Hwf x)
          by (unfold in_int, int_min, int_max; lia)
    end.

(** The signed difference the first class works with, and how one update
    changes it.  No bound on [target - value] is assumed: the difference is
    taken modulo [2 ^ int_bits]. *)
Lemma step_update_delta (s : state) :
  in_int p (value_ s) -> in_int p (target_ s) ->
  max_falling_ s <= 0 <= max_rising_ s ->
  let d := isub p (target_ s) (value_ s) in
  let s' := ChangeLimiter.update p s in
  in_int p (value_ s') /\
  (max_rising_ s < d -> isub p (target_ s') (value_ s') = d - max_rising_ s) /\
  (d < max_falling_ s -> isub p (target_ s') (value_ s') = d - max_falling_ s) /\
  (max_falling_ s <= d <= max_rising_ s -> value_ s' = target_ s).
Proof.
  intros Hv Ht Hlim d s'. subst d s'. unfold ChangeLimiter.update.
  set (d := isub p (target_ s) (value_ s)).
  assert (Hd : in_int p d) by apply (wrap_in_int p Hwf).
  destruct (wrap_decompose p Hwf (target_ s - value_ s)) as (k & Hk).
  fold (isub p (target_ s) (value_ s)) in Hk. fold d in Hk.
  destruct (Z.gtb_spec d 0) as [Hpos|Hpos];
    destruct (Z.gtb_spec d (max_rising_ s)) as [Hr|Hr]; simpl.
  - (* rising, clamped *)
    destruct (wrap_decompose p Hwf (value_ s + max_rising_ s)) as (k1 & Hk1).
    split; [apply (wrap_in_int p Hwf)|].
    split; [intros _|split; intros; lia].
    unfold isub, iadd.
    apply (wrap_unique p Hwf _ _ (k + k1)); [bounds; lia|].
    rewrite Hk1. lia.
  - (* rising, within the limit *)
    assert (Hf : (d <? 0) = false) by (apply Z.ltb_ge; lia).
    rewrite Hf. simpl.
    assert (Hval : iadd p (value_ s) d = target_ s).
    { unfold iadd. apply (wrap_unique p Hwf _ _ (- k)); [assumption | lia]. }
    rewrite Hval. split; [assumption|].
    split; [intros; lia|]. split; [intros; lia | reflexivity].
  - lia.
  - destruct (Z.ltb_spec d 0) as [Hneg|Hneg];
      destruct (Z.ltb_spec d (max_falling_ s)) as [Hfl|Hfl]; simpl.
    + (* falling, clamped *)
      destruct (wrap_decompose p Hwf (value_ s + max_falling_ s)) as (k1 & Hk1).
      split; [apply (wrap_in_int p Hwf)|].
      split; [intros; lia|]. split; [intros _|intros; lia].
      unfold isub, iadd.
      apply (wrap_unique p Hwf _ _ (k + k1)); [bounds; lia|].
      rewrite Hk1. lia.
    + (* falling, within the limit *)
      assert (Hval : iadd p (value_ s) d = target_ s).
      { unfold iadd. apply (wrap_unique p Hwf _ _ (- k)); [assumption | lia]. }
      rewrite Hval. split; [assumption|].
      split; [intros; lia|]. split; [intros; lia | reflexivity].
    + lia.
    + (* already at the target *)
      assert (Hval : iadd p (value_ s) d = target_ s).
      { unfold iadd. apply (wrap_unique p Hwf _ _ (- k)); [assumption | lia]. }
      rewrite Hval. split; [assumption|].
      split; [intros; lia|]. split; [intros; lia | reflexivity].
Qed.

(** The first class's update when [target_ - value_] is an [int]: the value
    moves by the clamped difference. *)
Lemma step_update_exact (s : state) :
  in_int p (value_ s) -> in_int p (target_ s) ->
  max_falling_ s <= 0 <= max_rising_ s ->
  in_int p (target_ s - value_ s) ->
  value_ (ChangeLimiter.update p s) =
    value_ s +
    Z.max (max_falling_ s) (Z.min (max_rising_ s) (target_ s - value_ s)).
Proof.
  intros Hv Ht Hlim Hd. unfold ChangeLimiter.update, isub, iadd.
  rewrite (wrap_small p Hwf (target_ s - value_ s)) by assumption.
  bounds.
  destruct (Z.gtb_spec (target_ s - value_ s) 0);
    destruct (Z.gtb_spec (target_ s - value_ s) (max_rising_ s));
    destruct (Z.ltb_spec (target_ s - value_ s) 0);
    destruct (Z.ltb_spec (target_ s - value_ s) (max_falling_ s));
    simpl; unwrap; lia.
Qed.

Lemma imul_sign (a b : Z) : imul p (sign a) (sign b) = sign a * sign b.
Proof.
  unfold imul. apply (wrap_small p Hwf). bounds.
  destruct (sign_cases a) as [(_ & ->)|[(_ & ->)|(_ & ->)]];
    destruct (sign_cases b) as [(_ & ->)|[(_ & ->)|(_ & ->)]]; simpl; lia.
Qed.

Lemma direction_exact (a b : Z) :
  AbsChangeLimiter.direction p a b = Z.lor (sign a) (sign b).
Proof.
  unfold AbsChangeLimiter.direction, ior. apply (wrap_small p Hwf). bounds.
  destruct (sign_cases a) as [(_ & ->)|[(_ & ->)|(_ & ->)]];
    destruct (sign_cases b) as [(_ & ->)|[(_ & ->)|(_ & ->)]]; simpl; lia.
Qed.

(** The second class's update when no operand is the most negative [int] and
    the limits are non-negative: no operation wraps. *)
Lemma abs_update_exact (s : state) :
  int_min p < value_ s <= int_max p ->
  int_min p < target_ s <= int_max p ->
  0 <= max_falling_ s <= int_max p ->
  0 <= max_rising_ s <= int_max p ->
  value_ (AbsChangeLimiter.update p s) =
    abs_next (max_falling_ s) (max_rising_ s) (value_ s) (target_ s).
Proof.
  intros Hv Ht Hf Hr.
  unfold AbsChangeLimiter.update, abs_next.
  rewrite imul_sign, direction_exact.
  rewrite (abs_small p Hwf (value_ s)), (abs_small p Hwf (target_ s)) by lia.
  assert (Hd : isub p (Z.abs (target_ s)) (Z.abs (value_ s))
               = Z.abs (target_ s) - Z.abs (value_ s)).
  { unfold isub. apply (wrap_small p Hwf). bounds. lia. }
  rewrite Hd.
  rewrite (abs_small p Hwf (Z.abs (target_ s) - Z.abs (value_ s)))
    by (bounds; lia).
  bounds.
  destruct (sign_cases (value_ s)) as [(Hsv & ->)|[(Hsv & ->)|(Hsv & ->)]];
    destruct (sign_cases (target_ s)) as [(Hst & ->)|[(Hst & ->)|(Hst & ->)]];
    repeat match goal with
      | |- context [?a * ?b =? -1] =>
          let r := eval vm_compute in (a * b =? -1) in
          change (a * b =? -1) with r
      | |- context [Z.lor ?a ?b] =>
          let r := eval vm_compute in (Z.lor a b) in
          change (Z.lor a b) with r
      end; cbv iota;
    repeat match goal with
      | |- context [if ?c then _ else _] =>
          match c with
          | Z.leb ?a ?b => destruct (Z.leb_spec a b)
          | andb (Z.gtb ?a 0) (Z.gtb ?a ?b) =>
              destruct (Z.gtb_spec a 0); destruct (Z.gtb_spec a b)
          | andb (Z.ltb ?a 0) (Z.gtb ?b ?c) =>
              destruct (Z.ltb_spec a 0); destruct (Z.gtb_spec b c)
          end; simpl andb; cbv iota
      end;
    unfold isub, iadd, imul; cbn [value_ with_value];
    unwrap; lia.
Qed.
End Updates.

(** * Runs of calls *)

Lemma outputs_cons (p : Platform) (v : variant) (ms : Z) (ts : list Z)
  (s : state) :
  outputs p v (ms :: ts) s =
    fst (output p v ms s) :: outputs p v ts (snd (output p v ms s)).
Proof.
  unfold outputs. simpl. destruct (output p v ms s) as (r, s1). simpl.
  destruct (run p v ts s1) as (rs, s2). reflexivity.
Qed.

Lemma final_cons (p : Platform) (v : variant) (ms : Z) (ts : list Z)
  (s : state) :
  final p v (ms :: ts) s = final p v ts (snd (output p v ms s)).
Proof.
  unfold final. simpl. destruct (output p v ms s) as (r, s1). simpl.
  destruct (run p v ts s1) as (rs, s2). reflexivity.
Qed.

(** * The first class never passes the target *)

Section NoOvershoot.
Variable p : Platform.
Hypothesis Hwf : wf_platform p.

(** C3, amended.  In [ChangeLimiter], with [max_falling_ <= 0 <= max_rising_]
    and a difference [target_ - value_] that is an [int], one [output] call
    leaves the value between its old position and the target: the distance
    to the target does not grow and the value does not cross the target. *)
Theorem step_never_passes_target (ms : Z) (s : state) :
  in_int p (value_ s) -> in_int p (target_ s) ->
  max_falling_ s <= 0 <= max_rising_ s ->
  in_int p (target_ s - value_ s) ->
  let v' := value_ (snd (output p Step ms s)) in
  fst (output p Step ms s) = v' /\
  Z.abs (v' - target_ s) <= Z.abs (value_ s - target_ s) /\
  (value_ s <= target_ s -> value_ s <= v' <= target_ s) /\
  (target_ s <= value_ s -> target_ s <= v' <= value_ s).
Proof.
  intros Hv Ht Hlim Hd v'. subst v'.
  rewrite output_gated. unfold gated.
  destruct (enabled_ s); [|simpl; lia].
  cbv zeta.
  set (s1 := if prev_time_ s =? 0 then with_prev_time ms s else s).
  assert (Hs1 : value_ s1 = value_ s /\ target_ s1 = target_ s /\
                max_falling_ s1 = max_falling_ s /\
                max_rising_ s1 = max_rising_ s)
    by (subst s1; destruct (prev_time_ s =? 0); repeat split; reflexivity).
  destruct Hs1 as (E1 & E2 & E3 & E4).
  destruct (due p ms s1); simpl fst; simpl snd.
  - change (update p Step (with_prev_time ms s1))
      with (ChangeLimiter.update p (with_prev_time ms s1)).
    rewrite (step_update_exact p Hwf (with_prev_time ms s1));
      simpl; rewrite ?E1, ?E2, ?E3, ?E4; try assumption.
    lia.
  - rewrite E1. lia.
Qed.
End NoOvershoot.

Lemma step_never_passes_target_witness :
  let s := mkState true (-10) 100 0 0 (-34) 130 in
  (in_int avr (value_ s) /\ in_int avr (target_ s) /\
   max_falling_ s <= 0 <= max_rising_ s /\
   in_int avr (target_ s - value_ s)) /\
  Z.abs (value_ (snd (output avr Step 5 s)) - 130) <= Z.abs (-34 - 130).
Proof.
  split.
  - unfold in_int, int_min, int_max; simpl; lia.
  - apply (step_never_passes_target avr ltac:(unfold wf_platform; simpl; lia)
             5 (mkState true (-10) 100 0 0 (-34) 130));
      unfold in_int, int_min, int_max; simpl; lia.
Defined.

(** C3 as stated fails on a 16-bit board once [target_ - value_] is not an
    [int]: 30000 - (-30000) wraps to -5536, the value is taken to be above the
    target and falls by 10, away from the target. *)
Lemma step_wraps_away_counterexample :
  let s := ChangeLimiter.set_target 30000
             (ChangeLimiter.set_value (-30000)
                (ChangeLimiter.set_limit avr 10 100
                   (ChangeLimiter.begin zero_state))) in
  in_int avr (value_ s) /\ in_int avr (target_ s) /\
  max_falling_ s <= 0 <= max_rising_ s /\
  isub avr (target_ s) (value_ s) = -5536 /\
  output avr Step 1 s = (-30010, with_prev_time 1 (with_value (-30010) s)) /\
  ~ Z.abs (value_ (snd (output avr Step 1 s)) - target_ s)
      <= Z.abs (value_ s - target_ s).
Proof.
  cbv zeta. repeat split; vm_compute; congruence.
Qed.

(** * The zero-crossing scenario of the second class *)

Section ZeroCrossing.
Variable p : Platform.
Hypothesis Hwf : wf_platform p.

Lemma crossing_output (prev value ms : Z) :
  -32768 < value <= 32767 ->
  output p Absolute ms (crossing prev value) =
    (abs_next 10 100 value 130, crossing ms (abs_next 10 100 value 130)).
Proof.
  intros Hv.
  pose proof (half_modulus_large p Hwf) as HM.
  assert (Hd : due p ms (if prev_time_ (crossing prev value) =? 0
                         then with_prev_time ms (crossing prev value)
                         else crossing prev value) = true)
    by (destruct (prev_time_ (crossing prev value) =? 0); reflexivity).
  rewrite (output_due p Absolute ms (crossing prev value) eq_refl Hd).
  rewrite (update_frame p Absolute).
  change (update p Absolute) with (AbsChangeLimiter.update p).
  rewrite (abs_update_exact p Hwf);
    [reflexivity | unfold int_min, int_max; simpl; lia ..].
Qed.

Lemma crossing_settled (ts : list Z) (prev : Z) :
  outputs p Absolute ts (crossing prev 130) = repeat 130 (length ts).
Proof.
  revert prev. induction ts as [|ms ts IH]; intros prev; [reflexivity|].
  rewrite outputs_cons, crossing_output by lia.
  change (abs_next 10 100 130 130) with 130.
  simpl. rewrite IH. reflexivity.
Qed.

(** The setter calls of the scenario lead to its first state. *)
Lemma zero_crossing_start_state : zero_crossing_start p = crossing 0 (-34).
Proof. reflexivity. Qed.

(** C1.  From [max_falling_ = 10], [max_rising_ = 100], [period_ = 0],
    enabled, [value_ = -34], [target_ = 130] and any [prev_time_], the calls
    of [AbsChangeLimiter::output], at any time stamps, return
    -24, -14, -4, 0, 100, 130 and then 130 for ever. *)
Theorem zero_crossing_scenario (prev : Z) (ts : list Z) :
  outputs p Absolute ts (crossing prev (-34))
  = zero_crossing_values (length ts).
Proof.
  unfold zero_crossing_values.
  destruct ts as [|t1 ts]; [reflexivity|].
  rewrite outputs_cons, crossing_output by lia.
  change (abs_next 10 100 (-34) 130) with (-24). simpl fst; simpl snd.
  destruct ts as [|t2 ts]; [reflexivity|].
  rewrite outputs_cons, crossing_output by lia.
  change (abs_next 10 100 (-24) 130) with (-14). simpl fst; simpl snd.
  destruct ts as [|t3 ts]; [reflexivity|].
  rewrite outputs_cons, crossing_output by lia.
  change (abs_next 10 100 (-14) 130) with (-4). simpl fst; simpl snd.
  destruct ts as [|t4 ts]; [reflexivity|].
  rewrite outputs_cons, crossing_output by lia.
  change (abs_next 10 100 (-4) 130) with 0. simpl fst; simpl snd.
  destruct ts as [|t5 ts]; [reflexivity|].
  rewrite outputs_cons, crossing_output by lia.
  change (abs_next 10 100 0 130) with 100. simpl fst; simpl snd.
  destruct ts as [|t6 ts]; [reflexivity|].
  rewrite outputs_cons, crossing_output by lia.
  change (abs_next 10 100 100 130) with 130. simpl fst; simpl snd.
  rewrite crossing_settled. simpl. rewrite firstn_nil, Nat.sub_0_r.
  reflexivity.
Qed.
End ZeroCrossing.

Lemma zero_crossing_scenario_witness :
  outputs avr Absolute [7; 7; 90; 3; 4000; 4001; 0; 12]
    (zero_crossing_start avr)
  = [-24; -14; -4; 0; 100; 130; 130; 130].
Proof.
  exact (zero_crossing_scenario avr ltac:(unfold wf_platform; simpl; lia)
           0 [7; 7; 90; 3; 4000; 4001; 0; 12]).
Defined.

(** * Convergence *)

Lemma ceil_div_covers (a b : Z) : 0 < b -> a <= ceil_div a b * b.
Proof.
  intros Hb. unfold ceil_div.
  pose proof (Z.div_mod (a + b - 1) b ltac:(lia)) as Hdm.
  pose proof (Z.mod_pos_bound (a + b - 1) b Hb) as Hm.
  lia.
Qed.

(** The second class on unbounded integers: each update uses up one smallest
    step of the potential, or finishes. *)
Lemma abs_next_progress (mf mr value target : Z) :
  0 < mf -> 0 < mr ->
  let value' := abs_next mf mr value target in
  let m := Z.min mf mr in
  let pot := fun x =>
    Z.abs (target - x) + (if sign target * sign x =? -1 then m else 0) in
  pot value' <= Z.max 0 (pot value - m) /\
  Z.abs value' <= Z.max (Z.abs value) (Z.abs target).
Proof.
  intros Hf Hr value' m pot. subst value' pot m. unfold abs_next.
  destruct (sign_cases value) as [(Hsv & Ev)|[(Hsv & Ev)|(Hsv & Ev)]];
    destruct (sign_cases target) as [(Hst & Et)|[(Hst & Et)|(Hst & Et)]];
    rewrite Ev, Et;
    repeat match goal with
      | |- context [?a * ?b =? -1] =>
          lazymatch a with
          | sign _ => fail
          | _ => lazymatch b with
                 | sign _ => fail
                 | _ => let r := eval vm_compute in (a * b =? -1) in
                        change (a * b =? -1) with r
                 end
          end
      | |- context [Z.lor ?a ?b] =>
          let r := eval vm_compute in (Z.lor a b) in
          change (Z.lor a b) with r
      end; cbv iota;
    repeat match goal with
      | |- context [if ?c then _ else _] =>
          match c with
          | Z.leb ?a ?b => destruct (Z.leb_spec a b)
          | andb (Z.gtb ?a 0) (Z.gtb ?a ?b) =>
              destruct (Z.gtb_spec a 0); destruct (Z.gtb_spec a b)
          | andb (Z.ltb ?a 0) (Z.gtb ?b ?c) =>
              destruct (Z.ltb_spec a 0); destruct (Z.gtb_spec b c)
          end; simpl andb; cbv iota
      end;
    match goal with
    | |- context [sign ?x] =>
        destruct (sign_cases x) as [(Hx & Ex)|[(Hx & Ex)|(Hx & Ex)]];
        rewrite Ex;
        repeat match goal with
          | |- context [?a * ?b =? -1] =>
              let r := eval vm_compute in (a * b =? -1) in
              change (a * b =? -1) with r
          end; cbv iota; lia
    | _ => lia
    end.
Qed.

Section Convergence.
Variable p : Platform.
Hypothesis Hwf : wf_platform p.

Lemma config_ok_frame (v : variant) (s : state) (ms : Z) :
  config_ok p v (with_prev_time ms s) <-> config_ok p v s.
Proof. destruct v; simpl; tauto. Qed.

Lemma limit_min_positive (v : variant) (s : state) :
  config_ok p v s -> 0 < limit_min s.
Proof. unfold limit_min. destruct v; simpl; lia. Qed.

Lemma potential_nonneg (v : variant) (s : state) :
  config_ok p v s -> 0 <= potential p v s.
Proof.
  intros Hc. pose proof (limit_min_positive v s Hc).
  destruct v; simpl; [lia|]. destruct (opposite_signs s); lia.
Qed.

(** The potential is at most the distance of the specification plus the
    allowance for the stop at zero. *)
Lemma potential_le_claim (v : variant) (s : state) :
  potential p v s
  <= Z.abs (target_ s - value_ s) + zero_pass v s * limit_min s.
Proof.
  destruct v; simpl.
  - pose proof (wrap_abs_le p Hwf (target_ s - value_ s)). unfold isub. lia.
  - destruct (opposite_signs s); lia.
Qed.

Lemma potential_zero (v : variant) (s : state) :
  config_ok p v s -> potential p v s <= 0 -> value_ s = target_ s.
Proof.
  intros Hc Hz. pose proof (limit_min_positive v s Hc) as Hm.
  destruct v; simpl in Hc, Hz.
  - destruct Hc as (Hv & Ht & _).
    destruct (wrap_decompose p Hwf (target_ s - value_ s)) as (k & Hk).
    fold (isub p (target_ s) (value_ s)) in Hk.
    assert (H0 : isub p (target_ s) (value_ s) = 0) by lia.
    pose proof (half_modulus p Hwf). pose proof (half_modulus_large p Hwf).
    unfold in_int, int_min, int_max in *.
    assert (Hk0 : k = 0) by nia.
    subst k. lia.
  - destruct (opposite_signs s); lia.
Qed.

(** One update: the configuration stays admissible, the limits and the target
    stay, and the potential falls by a smallest step or to zero. *)
Lemma update_progress (v : variant) (s : state) :
  config_ok p v s ->
  config_ok p v (update p v s) /\
  limit_min (update p v s) = limit_min s /\
  potential p v (update p v s) <= Z.max 0 (potential p v s - limit_min s).
Proof.
  intros Hc. destruct v.
  - destruct Hc as (Hv & Ht & Hlim).
    destruct (step_update_delta p Hwf s Hv Ht ltac:(lia)) as (Hv' & Hr & Hf & He).
    cbv zeta in Hr, Hf, He.
    pose proof (update_frame p Step s) as Hfr. simpl update in *.
    split; [|split].
    + rewrite Hfr. simpl. rewrite Hfr in Hv'. simpl in Hv'. tauto.
    + rewrite Hfr. reflexivity.
    + unfold potential, limit_min.
      destruct (Z_lt_dec (max_rising_ s) (isub p (target_ s) (value_ s)))
        as [H1|H1];
        [rewrite (Hr H1); lia|].
      destruct (Z_lt_dec (isub p (target_ s) (value_ s)) (max_falling_ s))
        as [H2|H2];
        [rewrite (Hf H2); lia|].
      rewrite (He ltac:(lia)).
      replace (target_ (ChangeLimiter.update p s)) with (target_ s)
        by (rewrite Hfr; reflexivity).
      unfold isub. rewrite Z.sub_diag.
      rewrite (wrap_small p Hwf 0) by (apply (small_in_int p Hwf); lia).
      lia.
  - destruct Hc as (Hv & Ht & Hf & Hr).
    pose proof (update_frame p Absolute s) as Hfr. simpl update in *.
    pose proof (abs_update_exact p Hwf s Hv Ht ltac:(lia) ltac:(lia)) as Hex.
    destruct (abs_next_progress (max_falling_ s) (max_rising_ s) (value_ s)
                (target_ s) ltac:(lia) ltac:(lia)) as (Hpot & Habs).
    cbv zeta beta in Hpot.
    rewrite Hfr, Hex.
    unfold potential, limit_min, opposite_signs, config_ok. simpl.
    replace (Z.abs (max_falling_ s)) with (max_falling_ s) by lia.
    split; [|split; [reflexivity | exact Hpot]].
    unfold int_min, int_max in *. lia.
Qed.

(** The inner [if] is taken when the schedule is admissible and
    [prev_time_] has been set. *)
Lemma due_on_schedule (ms : Z) (ts : list Z) (s : state) :
  period_ s = 0 \/
  (prev_time_ s <> 0 /\ in_ulong p (prev_time_ s) /\
   well_spaced p (period_ s) (prev_time_ s) (ms :: ts)) ->
  due p ms (if prev_time_ s =? 0 then with_prev_time ms s else s) = true.
Proof.
  intros [H0|(Hnz & Hprev & Hms & Hlt & Hper & _)].
  - unfold due. destruct (prev_time_ s =? 0); simpl; rewrite H0; reflexivity.
  - destruct (Z.eqb_spec (prev_time_ s) 0); [contradiction|].
    unfold due. rewrite (ulsub_forward p ms (prev_time_ s)) by (assumption || lia).
    apply orb_true_iff. right. apply Z.geb_le. lia.
Qed.

(** Calls on an admissible schedule with [prev_time_] set: each one updates. *)
Lemma run_progress (v : variant) (ts : list Z) :
  forall s : state,
    enabled_ s = true ->
    config_ok p v s ->
    period_ s = 0 \/
    (prev_time_ s <> 0 /\ in_ulong p (prev_time_ s) /\
     well_spaced p (period_ s) (prev_time_ s) ts) ->
    config_ok p v (final p v ts s) /\
    potential p v (final p v ts s)
    <= Z.max 0 (potential p v s - Z.of_nat (length ts) * limit_min s).
Proof.
  induction ts as [|ms ts IH]; intros s He Hc Hs.
  - unfold final. simpl. split; [assumption | lia].
  - rewrite final_cons.
    rewrite (output_due p v ms s He (due_on_schedule ms ts s Hs)).
    simpl snd.
    pose proof (proj2 (config_ok_frame v s ms) Hc) as Hc1.
    destruct (update_progress v (with_prev_time ms s) Hc1) as (Hc2 & Hm & Hpot).
    pose proof (limit_min_positive v s Hc) as Hmpos.
    assert (Hs2 : period_ (update p v (with_prev_time ms s)) = 0 \/
                  (prev_time_ (update p v (with_prev_time ms s)) <> 0 /\
                   in_ulong p (prev_time_ (update p v (with_prev_time ms s))) /\
                   well_spaced p (period_ (update p v (with_prev_time ms s)))
                     (prev_time_ (update p v (with_prev_time ms s))) ts)).
    { rewrite update_period, update_prev_time. simpl.
      destruct Hs as [H0|(Hnz & Hprev & Hms & Hlt & Hper & Hrest)];
        [left; assumption|right].
      unfold in_ulong in Hprev. repeat split; try apply Hms; try assumption; lia. }
    destruct (IH (update p v (with_prev_time ms s))
                ltac:(rewrite update_enabled; exact He) Hc2 Hs2) as (Hc3 & Hfin).
    split; [assumption|].
    rewrite Hm in Hfin.
    change (limit_min (with_prev_time ms s)) with (limit_min s) in *.
    change (potential p v (with_prev_time ms s)) with (potential p v s) in *.
    change (length (ms :: ts)) with (S (length ts)).
    rewrite Nat2Z.inj_succ, Z.mul_succ_l.
    assert (0 <= Z.of_nat (length ts) * limit_min s) by nia.
    lia.
Qed.

(** With [enabled_] false the first call already copies the target. *)
Lemma run_bypass (v : variant) (ts : list Z) :
  forall s : state,
    enabled_ s = false -> ts <> [] ->
    value_ (final p v ts s) = target_ (final p v ts s).
Proof.
  induction ts as [|ms ts IH]; intros s He Hne; [contradiction|].
  rewrite final_cons.
  rewrite (output_disabled p v ms s He). simpl snd.
  destruct ts as [|ms' ts'].
  - reflexivity.
  - apply IH; [exact He | discriminate].
Qed.

(** C2, amended.  In either class, with both limits nonzero and operands in
    range, calls on an admissible schedule reach the target within
    [ceil (|target - value| / min(|maxFalling|, maxRising))] calls, plus one
    call when the second class starts with value and target of opposite signs,
    plus one call when the period is nonzero and [prev_time_] is still 0; and
    the target stays reached for every longer run. *)
Theorem converges_within_bound (v : variant) (ts : list Z) (s : state) :
  config_ok p v s ->
  in_uint p (period_ s) ->
  schedule_ok p s ts ->
  claimed_bound s + zero_pass v s + first_tick s <= Z.of_nat (length ts) ->
  ChangeLimiter.target_reached (final p v ts s) = true.
Proof.
  intros Hc Hper Hs Hlen.
  pose proof (limit_min_positive v s Hc) as Hm.
  pose proof (ceil_div_covers (Z.abs (target_ s - value_ s)) (limit_min s) Hm)
    as Hceil.
  fold (claimed_bound s) in Hceil.
  pose proof (potential_le_claim v s) as Hpot.
  assert (Hzp : 0 <= zero_pass v s <= 1)
    by (destruct v; simpl; [|destruct (opposite_signs s)]; lia).
  unfold ChangeLimiter.target_reached. apply Z.eqb_eq.
  assert (Hmain : forall ts' s',
             enabled_ s' = true -> config_ok p v s' ->
             period_ s' = 0 \/
             (prev_time_ s' <> 0 /\ in_ulong p (prev_time_ s') /\
              well_spaced p (period_ s') (prev_time_ s') ts') ->
             Z.abs (target_ s' - value_ s') + zero_pass v s' * limit_min s'
             <= Z.of_nat (length ts') * limit_min s' ->
             value_ (final p v ts' s') = target_ (final p v ts' s')).
  { intros ts' s' He' Hc' Hs' Hlen'.
    destruct (run_progress v ts' s' He' Hc' Hs') as (Hcf & Hpf).
    pose proof (potential_le_claim v s').
    apply (potential_zero v _ Hcf). lia. }
  destruct (enabled_ s) eqn:He.
  - unfold first_tick in Hlen.
    destruct Hs as [H0|[(Hnz & Hprev & Hsp)|(Hz & Hsp)]].
    + rewrite H0 in Hlen. simpl in Hlen.
      apply Hmain; [assumption | assumption | left; assumption | nia].
    + destruct (Z.eqb_spec (prev_time_ s) 0); [contradiction|].
      rewrite andb_false_r in Hlen.
      apply Hmain; [assumption | assumption | right; tauto | nia].
    + destruct (Z.eq_dec (period_ s) 0) as [H0|Hp0].
      * rewrite H0 in Hlen. simpl in Hlen.
        apply Hmain; [assumption | assumption | left; assumption | nia].
      * destruct (Z.eqb_spec (period_ s) 0); [contradiction|].
        rewrite Hz in Hlen. simpl in Hlen.
        destruct ts as [|t0 ts'].
        { simpl in Hlen. assert (Hb : 0 <= claimed_bound s) by nia. lia. }
        destruct Hsp as (Ht0 & Hin & Hsp).
        rewrite final_cons.
        assert (Hnd : due p t0 (if prev_time_ s =? 0 then with_prev_time t0 s
                                else s) = false).
        { rewrite Hz. simpl. unfold due. simpl.
          rewrite (ulsub_self p Hwf).
          destruct (Z.eqb_spec (period_ s) 0); [contradiction|]. simpl.
          rewrite Z.geb_leb. apply Z.leb_gt.
          unfold in_uint in Hper. lia. }
        rewrite (output_not_due p v t0 s He Hnd). rewrite Hz. simpl snd.
        change (length (t0 :: ts')) with (S (length ts')) in Hlen.
        rewrite Nat2Z.inj_succ in Hlen.
        apply Hmain;
          [assumption | apply config_ok_frame; assumption | right
          | change (Z.abs (target_ s - value_ s) + zero_pass v s * limit_min s
                    <= Z.of_nat (length ts') * limit_min s); nia].
        simpl. repeat split; try assumption; try lia; apply Hin.
  - destruct ts as [|ms ts'].
    + simpl in Hlen. unfold final. simpl.
      assert (Hft : 0 <= first_tick s)
        by (unfold first_tick; destruct (_ && _); lia).
      assert (Hb : claimed_bound s <= 0) by lia.
      nia.
    + apply run_bypass; [assumption | discriminate].
Qed.
End Convergence.

Lemma converges_within_bound_witness :
  (config_ok avr Step (paced_start avr) /\
   in_uint avr (period_ (paced_start avr)) /\
   schedule_ok avr (paced_start avr) [1000; 1100; 1250; 1350] /\
   claimed_bound (paced_start avr) + zero_pass Step (paced_start avr)
     + first_tick (paced_start avr) <= 4) /\
  ChangeLimiter.target_reached
    (final avr Step [1000; 1100; 1250; 1350] (paced_start avr)) = true.
Proof.
  assert (Hc : config_ok avr Step (paced_start avr))
    by (vm_compute; repeat split; congruence).
  assert (Hp : in_uint avr (period_ (paced_start avr)))
    by (unfold in_uint; simpl; lia).
  assert (Hs : schedule_ok avr (paced_start avr) [1000; 1100; 1250; 1350])
    by (right; right; vm_compute; repeat split; congruence).
  assert (Hl : claimed_bound (paced_start avr) + zero_pass Step (paced_start avr)
               + first_tick (paced_start avr)
               <= Z.of_nat (length [1000; 1100; 1250; 1350]))
    by (vm_compute; congruence).
  split; [split; [exact Hc | split; [exact Hp | split; [exact Hs | exact Hl]]]|].
  exact (converges_within_bound avr ltac:(unfold wf_platform; simpl; lia)
           Step [1000; 1100; 1250; 1350] (paced_start avr) Hc Hp Hs Hl).
Defined.

(** C2 as stated fails for the second class: from -15 towards 15 with both
    limits 10 the bound is [ceil (30 / 10) = 3], but the value stops at zero on
    the way: -5, 0, 10; the target is not reached within three calls. *)
Lemma zero_pass_counterexample :
  config_ok avr Absolute (reversal_start avr) /\
  period_ (reversal_start avr) = 0 /\
  well_spaced avr (period_ (reversal_start avr)) 0 [1; 2; 3] /\
  claimed_bound (reversal_start avr) = 3 /\
  outputs avr Absolute [1; 2; 3] (reversal_start avr) = [-5; 0; 10] /\
  (forall k : nat, (k <= 3)%nat ->
     ChangeLimiter.target_reached
       (final avr Absolute (firstn k [1; 2; 3]) (reversal_start avr)) = false).
Proof.
  split; [vm_compute; repeat split; congruence|].
  split; [reflexivity|].
  split; [vm_compute; repeat split; congruence|].
  split; [reflexivity|]. split; [reflexivity|].
  intros k Hk.
  destruct k as [|[|[|[|k]]]]; reflexivity.
Qed.

(** C2 as stated also fails for the first class when the period is nonzero and
    [begin] has just run: the first call only takes the time stamp, so the
    three calls the bound allows give 0, 10, 20 and not 25. *)
Lemma first_tick_counterexample :
  config_ok avr Step (paced_start avr) /\
  well_spaced avr (period_ (paced_start avr)) 900 [1000; 1100; 1200] /\
  claimed_bound (paced_start avr) = 3 /\
  outputs avr Step [1000; 1100; 1200] (paced_start avr) = [0; 10; 20] /\
  (forall k : nat, (k <= 3)%nat ->
     ChangeLimiter.target_reached
       (final avr Step (firstn k [1000; 1100; 1200]) (paced_start avr)) = false).
Proof.
  split; [vm_compute; repeat split; congruence|].
  split; [vm_compute; repeat split; congruence|].
  split; [reflexivity|]. split; [reflexivity|].
  intros k Hk.
  destruct k as [|[|[|[|k]]]]; reflexivity.
Qed.

(** * Further properties of the gating *)

Ltac avr_wf := unfold wf_platform; simpl; lia.
Ltac by_computation := vm_compute; repeat split; congruence.

Section GatingMore.
Variable p : Platform.
Hypothesis Hwf : wf_platform p.

Lemma due_unfold (ms : Z) (s : state) :
  in_uint p (period_ s) ->
  due p ms (if prev_time_ s =? 0 then with_prev_time ms s else s) =
  (period_ s =? 0) ||
  (negb (prev_time_ s =? 0) && (period_ s <=? ulsub p ms (prev_time_ s))).
Proof.
  intros Hper. unfold due, in_uint in *.
  destruct (Z.eqb_spec (prev_time_ s) 0) as [H0|H0]; simpl.
  - rewrite (ulsub_self p Hwf).
    destruct (Z.eqb_spec (period_ s) 0); simpl; [reflexivity|].
    rewrite Z.geb_leb. apply Z.leb_gt. lia.
  - rewrite Z.geb_leb. reflexivity.
Qed.

Lemma output_by_gate (v : variant) (ms : Z) (s : state) :
  enabled_ s = true ->
  in_uint p (period_ s) ->
  output p v ms s =
    if (period_ s =? 0) ||
       (negb (prev_time_ s =? 0) && (period_ s <=? ulsub p ms (prev_time_ s)))
    then (value_ (update p v (with_prev_time ms s)),
          update p v (with_prev_time ms s))
    else (value_ s, if prev_time_ s =? 0 then with_prev_time ms s else s).
Proof.
  intros He Hper. rewrite <- (due_unfold ms s Hper).
  destruct (due p ms _) eqn:Hd.
  - apply output_due; assumption.
  - apply output_not_due; assumption.
Qed.

(** X1.  An enabled call runs the update exactly when the period is 0, or
    [prev_time_] is nonzero and the elapsed time on [unsigned long] is at
    least the period (equality included); otherwise the value is returned as
    it is and only a first call stores its time stamp. *)
Theorem output_updates_exactly_when_due (v : variant) (ms : Z) (s : state) :
  enabled_ s = true ->
  in_uint p (period_ s) ->
  output p v ms s =
    if (period_ s =? 0) ||
       (negb (prev_time_ s =? 0) && (period_ s <=? ulsub p ms (prev_time_ s)))
    then (value_ (update p v (with_prev_time ms s)),
          update p v (with_prev_time ms s))
    else (value_ s, if prev_time_ s =? 0 then with_prev_time ms s else s).
Proof. apply output_by_gate. Qed.

Lemma elapsed_after_rollover (prev d : Z) :
  in_ulong p prev -> 0 <= d < 2 ^ long_bits p ->
  ulsub p ((prev + d) mod 2 ^ long_bits p) prev = d.
Proof.
  intros Hprev Hd. unfold ulsub, in_ulong in *.
  rewrite Zminus_mod_idemp_l.
  replace (prev + d - prev) with d by lia.
  apply Z.mod_small. assumption.
Qed.

(** X2.  The gating survives a roll-over of the clock: when the clock has
    advanced by [d] ticks since a nonzero [prev_time_], wrapping or not, the
    elapsed time computed is [d]; the update runs when [d] is at least the
    period and the call changes nothing when [d] is below it. *)
Theorem gating_survives_clock_rollover (v : variant) (d : Z) (s : state) :
  enabled_ s = true ->
  in_uint p (period_ s) ->
  prev_time_ s <> 0 ->
  in_ulong p (prev_time_ s) ->
  0 <= d < 2 ^ long_bits p ->
  let ms := (prev_time_ s + d) mod 2 ^ long_bits p in
  ulsub p ms (prev_time_ s) = d /\
  (period_ s <= d ->
     output p v ms s = (value_ (update p v (with_prev_time ms s)),
                        update p v (with_prev_time ms s))) /\
  (d < period_ s -> output p v ms s = (value_ s, s)).
Proof.
  intros He Hper Hnz Hprev Hd ms.
  pose proof (elapsed_after_rollover (prev_time_ s) d Hprev Hd) as Hel.
  fold ms in Hel.
  split; [assumption|].
  rewrite (output_by_gate v ms s He Hper), Hel.
  destruct (Z.eqb_spec (prev_time_ s) 0); [contradiction|]. simpl negb.
  split; intros Hcmp.
  - assert (Hle : (period_ s <=? d) = true) by (apply Z.leb_le; assumption).
    rewrite Hle, orb_true_r. reflexivity.
  - assert (Hle : (period_ s <=? d) = false) by (apply Z.leb_gt; assumption).
    assert (Hp0 : (period_ s =? 0) = false)
      by (apply Z.eqb_neq; lia).
    rewrite Hle, Hp0. reflexivity.
Qed.

(** X3.  An update that runs at clock reading 0 stores 0 in [prev_time_],
    which is the mark for "never updated": with a nonzero period the next
    call, however late, only stores its time stamp and does not update. *)
Theorem update_at_clock_zero_costs_next_update (v : variant) (s : state) :
  enabled_ s = true ->
  in_uint p (period_ s) ->
  period_ s <> 0 ->
  prev_time_ s <> 0 ->
  period_ s <= ulsub p 0 (prev_time_ s) ->
  let s1 := snd (output p v 0 s) in
  s1 = update p v (with_prev_time 0 s) /\
  prev_time_ s1 = 0 /\
  forall ms', output p v ms' s1 = (value_ s1, with_prev_time ms' s1).
Proof.
  intros He Hper Hp0 Hnz Hdue s1. subst s1.
  rewrite (output_by_gate v 0 s He Hper).
  destruct (Z.eqb_spec (prev_time_ s) 0); [contradiction|]. simpl negb.
  assert (Hle : (period_ s <=? ulsub p 0 (prev_time_ s)) = true)
    by (apply Z.leb_le; assumption).
  rewrite Hle, orb_true_r. simpl snd.
  split; [reflexivity|]. split; [apply update_prev_time|].
  intros ms'.
  rewrite (output_by_gate v ms');
    [|rewrite update_enabled; assumption|rewrite update_period; assumption].
  rewrite update_period, update_prev_time. simpl.
  assert (Hpz : (period_ s =? 0) = false) by (apply Z.eqb_neq; assumption).
  rewrite Hpz. reflexivity.
Qed.

Lemma output_configuration (v : variant) (ms : Z) (s : state) :
  configuration (snd (output p v ms s)) = configuration s.
Proof.
  rewrite output_gated. unfold gated.
  destruct (enabled_ s) eqn:He; [|unfold configuration; simpl; rewrite He; reflexivity].
  cbv zeta. destruct (due p ms _); simpl snd.
  - rewrite update_frame. destruct (prev_time_ s =? 0); reflexivity.
  - destruct (prev_time_ s =? 0); reflexivity.
Qed.

(** X4.  No sequence of [output] calls changes the configuration: [enabled_],
    both limits, the period and the target stay as the setters left them. *)
Theorem run_keeps_configuration (v : variant) (ts : list Z) (s : state) :
  configuration (final p v ts s) = configuration s.
Proof.
  revert s. induction ts as [|ms ts IH]; intros s; [reflexivity|].
  rewrite final_cons, IH. apply output_configuration.
Qed.

(** X5.  Calls made before the period has elapsed do not postpone the next
    update: with a nonzero [prev_time_], any number of calls whose elapsed time
    is below the period return the value and leave the object as it was, so
    the time is still measured from the last update. *)
Theorem early_calls_change_nothing (v : variant) (ts : list Z) (s : state) :
  enabled_ s = true ->
  in_uint p (period_ s) ->
  prev_time_ s <> 0 ->
  Forall (fun ms => ulsub p ms (prev_time_ s) < period_ s) ts ->
  final p v ts s = s /\ outputs p v ts s = repeat (value_ s) (length ts).
Proof.
  intros He Hper Hnz Hall.
  induction Hall as [|ms ts Hms Hall IH]; [split; reflexivity|].
  assert (Hout : output p v ms s = (value_ s, s)).
  { rewrite (output_by_gate v ms s He Hper).
    destruct (Z.eqb_spec (prev_time_ s) 0); [contradiction|]. simpl negb.
    assert (Hle : (period_ s <=? ulsub p ms (prev_time_ s)) = false)
      by (apply Z.leb_gt; assumption).
    pose proof (ulsub_nonneg p Hwf ms (prev_time_ s)).
    assert (Hp0 : (period_ s =? 0) = false) by (apply Z.eqb_neq; lia).
    rewrite Hle, Hp0. reflexivity. }
  rewrite final_cons, outputs_cons, Hout. simpl fst; simpl snd.
  destruct IH as (IH1 & IH2). rewrite IH1, IH2. split; reflexivity.
Qed.
End GatingMore.

(** * Further properties of the value *)

Section ValueMore.
Variable p : Platform.
Hypothesis Hwf : wf_platform p.

Ltac unwrap' :=
  repeat match goal with
    | |- context [wrap p ?x] =>
        rewrite (wrap_small p Hwf x)
          by (unfold in_int, int_min, int_max in *; lia)
    end.

(** The returned value is the stored one, and it comes from one of three
    places. *)
Lemma output_value_cases (v : variant) (ms : Z) (s : state) :
  fst (output p v ms s) = value_ (snd (output p v ms s)) /\
  (enabled_ s = false /\ value_ (snd (output p v ms s)) = target_ s \/
   enabled_ s = true /\
   (value_ (snd (output p v ms s)) = value_ s \/
    value_ (snd (output p v ms s))
    = value_ (update p v (with_prev_time ms s)))).
Proof.
  rewrite output_gated. unfold gated.
  destruct (enabled_ s); [|split; [reflexivity | left; split; reflexivity]].
  cbv zeta. split; [reflexivity|]. right. split; [reflexivity|].
  destruct (due p ms _); simpl snd.
  - right. destruct (prev_time_ s =? 0); reflexivity.
  - left. destruct (prev_time_ s =? 0); reflexivity.
Qed.

Lemma update_at_target (v : variant) (s : state) :
  in_int p (value_ s) -> value_ s = target_ s ->
  value_ (update p v s) = value_ s.
Proof.
  intros Hin Heq.
  assert (H0 : wrap p 0 = 0)
    by (apply (wrap_small p Hwf), (small_in_int p Hwf); lia).
  destruct v; simpl.
  - unfold ChangeLimiter.update, isub, iadd.
    rewrite <- Heq, Z.sub_diag, H0. simpl.
    rewrite Z.add_0_r. apply (wrap_small p Hwf). assumption.
  - unfold AbsChangeLimiter.update. rewrite <- Heq.
    rewrite (imul_sign p Hwf).
    assert (Hs : (sign (value_ s) * sign (value_ s) =? -1) = false).
    { destruct (sign_cases (value_ s)) as [(_ & ->)|[(_ & ->)|(_ & ->)]];
        reflexivity. }
    rewrite Hs. unfold isub. rewrite Z.sub_diag, H0. simpl.
    unfold iadd, imul. rewrite Z.mul_0_r, H0, Z.add_0_r.
    apply (wrap_small p Hwf). assumption.
Qed.

Lemma run_at_target (v : variant) (ts : list Z) (s : state) :
  in_int p (value_ s) ->
  value_ s = target_ s ->
  outputs p v ts s = repeat (target_ s) (length ts) /\
  value_ (final p v ts s) = target_ s /\
  ChangeLimiter.target_reached (final p v ts s) = true.
Proof.
  revert s. induction ts as [|ms ts IH]; intros s Hin Heq.
  - unfold outputs, final, ChangeLimiter.target_reached. simpl.
    repeat split; [assumption | apply Z.eqb_eq; assumption].
  - destruct (output_value_cases v ms s) as (Hfst & Hcases).
    assert (Hval : value_ (snd (output p v ms s)) = target_ s).
    { destruct Hcases as [(_ & H)|(_ & [H|H])]; rewrite H.
      - reflexivity.
      - assumption.
      - rewrite (update_at_target v (with_prev_time ms s)); assumption. }
    assert (Htgt : target_ (snd (output p v ms s)) = target_ s).
    { pose proof (output_configuration p v ms s) as Hc.
      unfold configuration in Hc. congruence. }
    rewrite outputs_cons, final_cons, Hfst, Hval.
    destruct (IH (snd (output p v ms s))) as (IH1 & IH2 & IH3).
    + rewrite Hval, <- Heq. assumption.
    + rewrite Hval, Htgt. reflexivity.
    + rewrite IH1, IH2, IH3, Htgt. repeat split; reflexivity.
Qed.

(** X6.  A reached target is stable: once [value_ == target_], every call of
    either class, at any time stamp, enabled or not and whatever the limits
    and the period are, returns the target and leaves the value on it. *)
Theorem reached_target_is_stable (v : variant) (ts : list Z) (s : state) :
  in_int p (value_ s) ->
  value_ s = target_ s ->
  outputs p v ts s = repeat (target_ s) (length ts) /\
  value_ (final p v ts s) = target_ s /\
  ChangeLimiter.target_reached (final p v ts s) = true.
Proof. apply run_at_target. Qed.

(** X18.  [begin()] puts any object to rest at 0: whatever it held before,
    it is enabled afterwards and every call of either class returns 0 and
    reports the target as reached, until a setter is used. *)
Theorem begin_rests_at_zero (v : variant) (ts : list Z) (s : state) :
  enabled_ (ChangeLimiter.begin s) = true /\
  outputs p v ts (ChangeLimiter.begin s) = repeat 0 (length ts) /\
  ChangeLimiter.target_reached (final p v ts (ChangeLimiter.begin s)) = true.
Proof.
  destruct (run_at_target v ts (ChangeLimiter.begin s)) as (H1 & _ & H3);
    [apply (small_in_int p Hwf); simpl; lia | reflexivity |].
  split; [reflexivity|]. split; assumption.
Qed.

(** X19.  While [enabled_] is false the time base is not touched: any
    non-empty sequence of calls returns the target each time and leaves the
    object as it was but for [value_ = target_], so [prev_time_] still holds
    the time of the last update. *)
Theorem bypass_run_keeps_time_base (v : variant) (ts : list Z) (s : state) :
  enabled_ s = false ->
  ts <> [] ->
  final p v ts s = with_value (target_ s) s /\
  outputs p v ts s = repeat (target_ s) (length ts).
Proof.
  intros He Hne. revert s He.
  induction ts as [|ms ts IH]; intros s He; [contradiction|].
  rewrite final_cons, outputs_cons, (output_disabled p v ms s He).
  simpl fst; simpl snd.
  destruct ts as [|ms' ts'].
  - split; reflexivity.
  - destruct (IH ltac:(discriminate) (with_value (target_ s) s) He)
      as (IH1 & IH2).
    rewrite IH1, IH2. split; reflexivity.
Qed.

Lemma step_update_next (s : state) :
  in_int p (value_ s) -> in_int p (target_ s) ->
  max_falling_ s <= 0 <= max_rising_ s ->
  in_int p (target_ s - value_ s) ->
  value_ (ChangeLimiter.update p s)
  = step_next (max_falling_ s) (max_rising_ s) (value_ s) (target_ s).
Proof. intros. unfold step_next. apply (step_update_exact p Hwf); assumption. Qed.

(** X7.  The first class is a rate limiter: with [max_falling_ <= 0 <=
    max_rising_] and a difference [target_ - value_] that is an [int], one
    enabled call changes the value by no less than [max_falling_] and no more
    than [max_rising_]. *)
Theorem step_change_within_limits (ms : Z) (s : state) :
  enabled_ s = true ->
  in_int p (value_ s) -> in_int p (target_ s) ->
  max_falling_ s <= 0 <= max_rising_ s ->
  in_int p (target_ s - value_ s) ->
  max_falling_ s <= fst (output p Step ms s) - value_ s <= max_rising_ s.
Proof.
  intros He Hv Ht Hlim Hd.
  destruct (output_value_cases Step ms s) as (Hfst & Hcases).
  rewrite Hfst.
  destruct Hcases as [(Hf & _)|(_ & [H|H])]; [congruence | rewrite H; lia|].
  rewrite H. change (update p Step) with (ChangeLimiter.update p).
  rewrite (step_update_next (with_prev_time ms s)) by assumption.
  unfold step_next. simpl. lia.
Qed.

(** X8.  One update of the first class lands on the target exactly when the
    difference lies within the two limits (no overflow, limits of the
    setter's signs); otherwise the value stays strictly short of the
    target. *)
Theorem step_update_lands_iff_within_limits (s : state) :
  in_int p (value_ s) -> in_int p (target_ s) ->
  max_falling_ s <= 0 <= max_rising_ s ->
  in_int p (target_ s - value_ s) ->
  (value_ (ChangeLimiter.update p s) = target_ s <->
   max_falling_ s <= target_ s - value_ s <= max_rising_ s) /\
  (max_rising_ s < target_ s - value_ s ->
   value_ (ChangeLimiter.update p s) = value_ s + max_rising_ s) /\
  (target_ s - value_ s < max_falling_ s ->
   value_ (ChangeLimiter.update p s) = value_ s + max_falling_ s).
Proof.
  intros Hv Ht Hlim Hd.
  rewrite (step_update_next s Hv Ht Hlim Hd). unfold step_next. lia.
Qed.

(** X9.  The trajectory of the first class in closed form: with period 0,
    enabled, limits of the setter's signs and no overflow in
    [target_ - value_], the value after [n] calls is
    [min (target, value + n * max_rising_)] when it starts at or below the
    target and [max (target, value + n * max_falling_)] when it starts above.
    In particular a zero limit in the needed direction keeps the value where
    it is for ever. *)
Theorem step_trajectory (ts : list Z) (s : state) :
  enabled_ s = true ->
  period_ s = 0 ->
  in_int p (value_ s) -> in_int p (target_ s) ->
  max_falling_ s <= 0 <= max_rising_ s ->
  in_int p (target_ s - value_ s) ->
  value_ (final p Step ts s) =
    if value_ s <=? target_ s
    then Z.min (target_ s) (value_ s + Z.of_nat (length ts) * max_rising_ s)
    else Z.max (target_ s) (value_ s + Z.of_nat (length ts) * max_falling_ s).
Proof.
  revert s. induction ts as [|ms ts IH]; intros s He Hp0 Hv Ht Hlim Hd.
  - unfold final. simpl. destruct (Z.leb_spec (value_ s) (target_ s)); lia.
  - assert (Hdue : due p ms (if prev_time_ s =? 0 then with_prev_time ms s
                             else s) = true).
    { unfold due. destruct (prev_time_ s =? 0); simpl; rewrite Hp0; reflexivity. }
    rewrite final_cons, (output_due p Step ms s He Hdue). simpl snd.
    pose proof (update_frame p Step (with_prev_time ms s)) as Hfr.
    pose proof (step_update_next (with_prev_time ms s) Hv Ht Hlim Hd) as Hnext.
    change (update p Step) with (ChangeLimiter.update p) in *.
    simpl in Hnext. unfold step_next in Hnext.
    set (s1 := ChangeLimiter.update p (with_prev_time ms s)) in *.
    assert (E : enabled_ s1 = true /\ period_ s1 = 0 /\
                target_ s1 = target_ s /\ max_falling_ s1 = max_falling_ s /\
                max_rising_ s1 = max_rising_ s).
    { rewrite Hfr. simpl. repeat split; assumption. }
    destruct E as (E1 & E2 & E3 & E4 & E5).
    assert (Hv1 : in_int p (value_ s1)) by (rewrite Hnext; unfold in_int in *; lia).
    assert (Hd1 : in_int p (target_ s1 - value_ s1)).
    { rewrite E3, Hnext. pose proof (half_modulus_large p Hwf).
      unfold in_int, int_min, int_max in *. lia. }
    rewrite (IH s1 E1 E2 Hv1 ltac:(rewrite E3; assumption)
               ltac:(rewrite E4, E5; assumption) Hd1).
    rewrite E3, E4, E5, Hnext.
    change (length (ms :: ts)) with (S (length ts)).
    rewrite Nat2Z.inj_succ.
    assert (0 <= Z.of_nat (length ts)) by lia.
    assert (0 <= Z.of_nat (length ts) * max_rising_ s) by nia.
    assert (Z.of_nat (length ts) * max_falling_ s <= 0) by nia.
    rewrite !Z.mul_succ_l.
    destruct (Z.leb_spec (value_ s) (target_ s));
      destruct (Z.leb_spec
                  (value_ s + Z.max (max_falling_ s)
                     (Z.min (max_rising_ s) (target_ s - value_ s)))
                  (target_ s)); lia.
Qed.
End ValueMore.

(** * Further properties of the second class *)

Ltac compute_signs :=
  repeat match goal with
    | |- context [?a * ?b =? -1] =>
        lazymatch a with
        | context [sign _] => fail
        | _ => lazymatch b with
               | context [sign _] => fail
               | _ => let r := eval vm_compute in (a * b =? -1) in
                      change (a * b =? -1) with r
               end
        end
    | |- context [Z.lor ?a ?b] =>
        lazymatch a with
        | context [sign _] => fail
        | _ => lazymatch b with
               | context [sign _] => fail
               | _ => let r := eval vm_compute in (Z.lor a b) in
                      change (Z.lor a b) with r
               end
        end
    end; cbv iota.

Ltac split_conditions :=
  repeat match goal with
    | |- context [if ?c then _ else _] =>
        match c with
        | Z.leb ?a ?b => destruct (Z.leb_spec a b)
        | andb (Z.gtb ?a 0) (Z.gtb ?a ?b) =>
            destruct (Z.gtb_spec a 0); destruct (Z.gtb_spec a b)
        | andb (Z.ltb ?a 0) (Z.gtb ?b ?c) =>
            destruct (Z.ltb_spec a 0); destruct (Z.gtb_spec b c)
        end; simpl andb; cbv iota
    end.

Lemma sign_opp (x : Z) : sign (- x) = - sign x.
Proof.
  unfold sign.
  destruct (Z.gtb_spec (- x) 0); destruct (Z.ltb_spec (- x) 0);
    destruct (Z.gtb_spec x 0); destruct (Z.ltb_spec x 0); lia.
Qed.

(** One update of the second class on unbounded integers, with non-negative
    limits: no overshoot, no jump across zero, magnitude changes within the
    limits. *)
Lemma abs_next_props (mf mr value target : Z) :
  0 <= mf -> 0 <= mr ->
  let value' := abs_next mf mr value target in
  Z.abs (value' - target) <= Z.abs (value - target) /\
  ~ (value < 0 < value') /\ ~ (value' < 0 < value) /\
  Z.abs value - mf <= Z.abs value' <= Z.abs value + mr /\
  Z.abs value' <= Z.max (Z.abs value) (Z.abs target).
Proof.
  intros Hf Hr value'. subst value'. unfold abs_next.
  destruct (sign_cases value) as [(Hsv & Ev)|[(Hsv & Ev)|(Hsv & Ev)]];
    destruct (sign_cases target) as [(Hst & Et)|[(Hst & Et)|(Hst & Et)]];
    rewrite Ev, Et; compute_signs; split_conditions; lia.
Qed.

Lemma abs_next_mirror (mf mr value target : Z) :
  abs_next mf mr (- value) (- target) = - abs_next mf mr value target.
Proof.
  unfold abs_next. rewrite !sign_opp, !Z.abs_opp.
  destruct (sign_cases value) as [(Hsv & Ev)|[(Hsv & Ev)|(Hsv & Ev)]];
    destruct (sign_cases target) as [(Hst & Et)|[(Hst & Et)|(Hst & Et)]];
    rewrite Ev, Et; compute_signs; split_conditions; lia.
Qed.



Section AbsoluteMore.
Variable p : Platform.
Hypothesis Hwf : wf_platform p.

(** Operands and limits for which no operation of the second class wraps. *)
Let operands_ok (s : state) : Prop :=
  int_min p < value_ s <= int_max p /\
  int_min p < target_ s <= int_max p /\
  0 <= max_falling_ s <= int_max p /\
  0 <= max_rising_ s <= int_max p.

Lemma abs_output_value (ms : Z) (s : state) :
  enabled_ s = true ->
  operands_ok s ->
  fst (output p Absolute ms s) = value_ (snd (output p Absolute ms s)) /\
  (fst (output p Absolute ms s) = value_ s \/
   fst (output p Absolute ms s)
   = abs_next (max_falling_ s) (max_rising_ s) (value_ s) (target_ s)).
Proof.
  intros He (Hv & Ht & Hf & Hr).
  destruct (output_value_cases p Absolute ms s) as (Hfst & Hcases).
  split; [assumption|]. rewrite Hfst.
  destruct Hcases as [(Hd & _)|(_ & [H|H])]; [congruence | left; assumption|].
  right. rewrite H. change (update p Absolute) with (AbsChangeLimiter.update p).
  rewrite (abs_update_exact p Hwf (with_prev_time ms s)) by assumption.
  reflexivity.
Qed.

(** X10.  The second class never passes the target either: with operands
    other than the most negative [int] and non-negative limits, one call,
    enabled or not, does not increase the distance to the target. *)
Theorem abs_never_passes_target (ms : Z) (s : state) :
  int_min p < value_ s <= int_max p ->
  int_min p < target_ s <= int_max p ->
  0 <= max_falling_ s <= int_max p ->
  0 <= max_rising_ s <= int_max p ->
  Z.abs (fst (output p Absolute ms s) - target_ s)
  <= Z.abs (value_ s - target_ s).
Proof.
  intros Hv Ht Hf Hr.
  destruct (enabled_ s) eqn:He.
  - destruct (abs_output_value ms s He (conj Hv (conj Ht (conj Hf Hr))))
      as (_ & [H|H]); rewrite H; [lia|].
    apply abs_next_props; lia.
  - rewrite (output_disabled p Absolute ms s He). simpl. lia.
Qed.

(** X11.  An enabled call of the second class never takes the value across
    zero: a negative value does not become positive in one call, nor a
    positive one negative; the value stops at zero first. *)
Theorem abs_never_jumps_across_zero (ms : Z) (s : state) :
  enabled_ s = true ->
  int_min p < value_ s <= int_max p ->
  int_min p < target_ s <= int_max p ->
  0 <= max_falling_ s <= int_max p ->
  0 <= max_rising_ s <= int_max p ->
  ~ (value_ s < 0 < fst (output p Absolute ms s)) /\
  ~ (fst (output p Absolute ms s) < 0 < value_ s).
Proof.
  intros He Hv Ht Hf Hr.
  destruct (abs_output_value ms s He (conj Hv (conj Ht (conj Hf Hr))))
    as (_ & [H|H]); rewrite H; [lia|].
  pose proof (abs_next_props (max_falling_ s) (max_rising_ s) (value_ s)
                (target_ s) ltac:(lia) ltac:(lia)) as (_ & H1 & H2 & _).
  split; assumption.
Qed.

(** X12.  The second class limits the change of the magnitude: in one enabled
    call [|value_|] falls by at most [max_falling_] and rises by at most
    [max_rising_]. *)
Theorem abs_magnitude_change_within_limits (ms : Z) (s : state) :
  enabled_ s = true ->
  int_min p < value_ s <= int_max p ->
  int_min p < target_ s <= int_max p ->
  0 <= max_falling_ s <= int_max p ->
  0 <= max_rising_ s <= int_max p ->
  Z.abs (value_ s) - max_falling_ s
  <= Z.abs (fst (output p Absolute ms s))
  <= Z.abs (value_ s) + max_rising_ s.
Proof.
  intros He Hv Ht Hf Hr.
  destruct (abs_output_value ms s He (conj Hv (conj Ht (conj Hf Hr))))
    as (_ & [H|H]); rewrite H; [lia|].
  pose proof (abs_next_props (max_falling_ s) (max_rising_ s) (value_ s)
                (target_ s) ltac:(lia) ltac:(lia)) as (_ & _ & _ & H1 & _).
  exact H1.
Qed.

Lemma same_gate (ms : Z) (s s' : state) (v v' : variant) :
  enabled_ s' = enabled_ s -> period_ s' = period_ s ->
  prev_time_ s' = prev_time_ s ->
  enabled_ s = true ->
  (fst (output p v ms s) = value_ s /\ fst (output p v' ms s') = value_ s') \/
  (fst (output p v ms s) = value_ (update p v (with_prev_time ms s)) /\
   fst (output p v' ms s') = value_ (update p v' (with_prev_time ms s'))).
Proof.
  intros E1 E2 E3 He.
  assert (Hd : due p ms (if prev_time_ s' =? 0 then with_prev_time ms s' else s')
               = due p ms (if prev_time_ s =? 0 then with_prev_time ms s else s)).
  { rewrite E3. unfold due.
    destruct (prev_time_ s =? 0); simpl; rewrite ?E2, ?E3; reflexivity. }
  destruct (due p ms (if prev_time_ s =? 0 then with_prev_time ms s else s))
    eqn:Hdue.
  - right. rewrite (output_due p v ms s He Hdue).
    rewrite (output_due p v' ms s' ltac:(congruence) ltac:(congruence)).
    split; reflexivity.
  - left. rewrite (output_not_due p v ms s He Hdue).
    rewrite (output_not_due p v' ms s' ltac:(congruence) ltac:(congruence)).
    split; reflexivity.
Qed.


(** X14.  The second class is symmetric about zero: negating value and target
    negates what a call returns. *)
Theorem abs_output_of_mirror (ms : Z) (s : state) :
  int_min p < value_ s <= int_max p ->
  int_min p < target_ s <= int_max p ->
  0 <= max_falling_ s <= int_max p ->
  0 <= max_rising_ s <= int_max p ->
  fst (output p Absolute ms (mirror s)) = - fst (output p Absolute ms s).
Proof.
  intros Hv Ht Hf Hr.
  pose proof (half_modulus_large p Hwf) as HM.
  destruct (enabled_ s) eqn:He.
  - destruct (same_gate ms s (mirror s) Absolute Absolute
                eq_refl eq_refl eq_refl He) as [(H1 & H2)|(H1 & H2)];
      rewrite H1, H2; [reflexivity|].
    change (update p Absolute) with (AbsChangeLimiter.update p).
    rewrite (abs_update_exact p Hwf (with_prev_time ms s)) by assumption.
    rewrite (abs_update_exact p Hwf (with_prev_time ms (mirror s)));
      simpl; unfold int_min, int_max in *; try lia.
    apply abs_next_mirror.
  - rewrite (output_disabled p Absolute ms s He).
    rewrite (output_disabled p Absolute ms (mirror s) He).
    reflexivity.
Qed.

End AbsoluteMore.

(** * Further properties of the setters *)

Section SettersMore.
Variable p : Platform.
Hypothesis Hwf : wf_platform p.

(** X16.  [set_limit(maxChange)] of the first class stores the symmetric pair
    [(-|maxChange|, |maxChange|)] for every [int] but the most negative one,
    for which both limits become that most negative [int]. *)
Theorem set_limit1_is_symmetric (a : Z) (s : state) :
  in_int p a ->
  (a <> int_min p ->
   max_falling_ (ChangeLimiter.set_limit1 p a s) = - Z.abs a /\
   max_rising_ (ChangeLimiter.set_limit1 p a s) = Z.abs a) /\
  (a = int_min p ->
   max_falling_ (ChangeLimiter.set_limit1 p a s) = int_min p /\
   max_rising_ (ChangeLimiter.set_limit1 p a s) = int_min p).
Proof.
  intros Ha. pose proof (half_modulus_large p Hwf) as HM.
  unfold ChangeLimiter.set_limit1, ChangeLimiter.set_limit. simpl.
  split.
  - intros Hne. unfold in_int in Ha.
    rewrite (abs_small p Hwf a) by lia.
    rewrite (ineg_small p Hwf); unfold int_min, int_max in *; lia.
  - intros ->. rewrite (abs_int_min p Hwf), (ineg_int_min p Hwf).
    split; reflexivity.
Qed.

(** X17.  The two-argument setters of both classes look at magnitudes only:
    for arguments other than the most negative [int], negating them or
    replacing them by their absolute values stores the same limits. *)
Theorem set_limit_ignores_signs (v : variant) (a b : Z) (s : state) :
  in_int p a -> in_int p b -> a <> int_min p -> b <> int_min p ->
  set_limit p v (- a) (- b) s = set_limit p v a b s /\
  set_limit p v (Z.abs a) (Z.abs b) s = set_limit p v a b s.
Proof.
  intros Ha Hb Hna Hnb. pose proof (half_modulus_large p Hwf) as HM.
  unfold in_int in *.
  assert (Habs : forall x, int_min p <= x <= int_max p -> x <> int_min p ->
                   abs p (- x) = abs p x /\ abs p (Z.abs x) = abs p x).
  { intros x Hx Hne.
    rewrite (abs_small p Hwf x) by lia.
    rewrite (abs_small p Hwf (- x)) by (unfold int_min, int_max in *; lia).
    rewrite (abs_small p Hwf (Z.abs x)) by (unfold int_min, int_max in *; lia).
    lia. }
  destruct (Habs a Ha Hna) as (A1 & A2). destruct (Habs b Hb Hnb) as (B1 & B2).
  destruct v; simpl;
    unfold ChangeLimiter.set_limit, AbsChangeLimiter.set_limit;
    rewrite A1, A2, B1, B2; split; reflexivity.
Qed.
End SettersMore.

(** * Instances on a 16-bit board *)

Lemma output_updates_exactly_when_due_witness :
  output avr Step 1100 (mkState true (-10) 100 100 1000 3 900)
  = (103, mkState true (-10) 100 100 1100 103 900).
Proof.
  etransitivity;
    [apply (output_updates_exactly_when_due avr ltac:(avr_wf) Step 1100
              (mkState true (-10) 100 100 1000 3 900) eq_refl
              ltac:(by_computation))
    | reflexivity].
Defined.

Lemma gating_survives_clock_rollover_witness :
  ulsub avr 204 4294967000 = 500 /\
  output avr Step 204 (mkState true (-10) 100 100 4294967000 3 900)
  = (103, mkState true (-10) 100 100 204 103 900).
Proof.
  destruct (gating_survives_clock_rollover avr ltac:(avr_wf) Step 500
              (mkState true (-10) 100 100 4294967000 3 900) eq_refl
              ltac:(by_computation) ltac:(discriminate)
              ltac:(by_computation) ltac:(by_computation)) as (H1 & H2 & _).
  split; [exact H1|].
  etransitivity; [exact (H2 ltac:(by_computation)) | reflexivity].
Defined.

Lemma update_at_clock_zero_costs_next_update_witness :
  output avr Step 0 (mkState true (-10) 100 100 4294967000 3 900)
  = (103, mkState true (-10) 100 100 0 103 900) /\
  output avr Step 5000 (mkState true (-10) 100 100 0 103 900)
  = (103, mkState true (-10) 100 100 5000 103 900).
Proof.
  destruct (update_at_clock_zero_costs_next_update avr ltac:(avr_wf) Step
              (mkState true (-10) 100 100 4294967000 3 900) eq_refl
              ltac:(by_computation) ltac:(discriminate) ltac:(discriminate)
              ltac:(by_computation)) as (_ & _ & H3).
  split; [reflexivity|].
  etransitivity; [exact (H3 5000) | reflexivity].
Defined.

Lemma early_calls_change_nothing_witness :
  final avr Absolute [1010; 1050; 1099]
    (mkState true 10 100 100 1000 3 900)
  = mkState true 10 100 100 1000 3 900 /\
  outputs avr Absolute [1010; 1050; 1099]
    (mkState true 10 100 100 1000 3 900) = [3; 3; 3].
Proof.
  apply (early_calls_change_nothing avr ltac:(avr_wf) Absolute
           [1010; 1050; 1099] (mkState true 10 100 100 1000 3 900) eq_refl
           ltac:(by_computation) ltac:(discriminate)).
  repeat constructor.
Defined.

Lemma reached_target_is_stable_witness :
  outputs avr Absolute [5; 9; 2] (mkState true 0 0 7 3 (-40) (-40))
  = [-40; -40; -40].
Proof.
  apply (reached_target_is_stable avr ltac:(avr_wf) Absolute [5; 9; 2]
           (mkState true 0 0 7 3 (-40) (-40)) ltac:(by_computation) eq_refl).
Defined.

Lemma step_change_within_limits_witness :
  -10 <= fst (output avr Step 5 (mkState true (-10) 100 0 0 (-34) 130)) - -34
  <= 100.
Proof.
  apply (step_change_within_limits avr ltac:(avr_wf) 5
           (mkState true (-10) 100 0 0 (-34) 130) eq_refl
           ltac:(by_computation) ltac:(by_computation) ltac:(by_computation)
           ltac:(by_computation)).
Defined.

Lemma step_update_lands_iff_within_limits_witness :
  value_ (ChangeLimiter.update avr (mkState true (-10) 100 0 0 66 130)) = 130
  <-> -10 <= 130 - 66 <= 100.
Proof.
  apply (step_update_lands_iff_within_limits avr ltac:(avr_wf)
           (mkState true (-10) 100 0 0 66 130)
           ltac:(by_computation) ltac:(by_computation) ltac:(by_computation)
           ltac:(by_computation)).
Defined.

Lemma step_trajectory_witness :
  value_ (final avr Step [5; 6; 7] (mkState true (-10) 100 0 0 900 130)) = 870.
Proof.
  etransitivity;
    [apply (step_trajectory avr ltac:(avr_wf) [5; 6; 7]
              (mkState true (-10) 100 0 0 900 130) eq_refl eq_refl
              ltac:(by_computation) ltac:(by_computation)
              ltac:(by_computation) ltac:(by_computation))
    | reflexivity].
Defined.

Lemma abs_never_passes_target_witness :
  Z.abs (fst (output avr Absolute 5 (mkState true 10 100 0 0 (-34) 130)) - 130)
  <= Z.abs (-34 - 130).
Proof.
  apply (abs_never_passes_target avr ltac:(avr_wf) 5
           (mkState true 10 100 0 0 (-34) 130)
           ltac:(by_computation) ltac:(by_computation) ltac:(by_computation)
           ltac:(by_computation)).
Defined.

Lemma abs_never_jumps_across_zero_witness :
  ~ (-4 < 0 < fst (output avr Absolute 5 (mkState true 10 100 0 0 (-4) 130))).
Proof.
  apply (abs_never_jumps_across_zero avr ltac:(avr_wf) 5
           (mkState true 10 100 0 0 (-4) 130) eq_refl
           ltac:(by_computation) ltac:(by_computation) ltac:(by_computation)
           ltac:(by_computation)).
Defined.

Lemma abs_magnitude_change_within_limits_witness :
  Z.abs (-34) - 10
  <= Z.abs (fst (output avr Absolute 5 (mkState true 10 100 0 0 (-34) 130)))
  <= Z.abs (-34) + 100.
Proof.
  apply (abs_magnitude_change_within_limits avr ltac:(avr_wf) 5
           (mkState true 10 100 0 0 (-34) 130) eq_refl
           ltac:(by_computation) ltac:(by_computation) ltac:(by_computation)
           ltac:(by_computation)).
Defined.


Lemma abs_output_of_mirror_witness :
  fst (output avr Absolute 5 (mkState true 10 100 0 0 34 (-130)))
  = - fst (output avr Absolute 5 (mkState true 10 100 0 0 (-34) 130)).
Proof.
  apply (abs_output_of_mirror avr ltac:(avr_wf) 5
           (mkState true 10 100 0 0 (-34) 130)
           ltac:(by_computation) ltac:(by_computation) ltac:(by_computation)
           ltac:(by_computation)).
Defined.


Lemma set_limit1_is_symmetric_witness :
  max_falling_ (ChangeLimiter.set_limit1 avr (-7) zero_state) = -7 /\
  max_rising_ (ChangeLimiter.set_limit1 avr (-7) zero_state) = 7.
Proof.
  apply (set_limit1_is_symmetric avr ltac:(avr_wf) (-7) zero_state
           ltac:(by_computation)).
  by_computation.
Defined.

Lemma set_limit_ignores_signs_witness :
  set_limit avr Absolute (- 7) (- -9) zero_state
  = set_limit avr Absolute 7 (-9) zero_state /\
  set_limit avr Absolute (Z.abs 7) (Z.abs (-9)) zero_state
  = set_limit avr Absolute 7 (-9) zero_state.
Proof.
  apply (set_limit_ignores_signs avr ltac:(avr_wf) Absolute 7 (-9) zero_state);
    by_computation.
Defined.

Lemma begin_rests_at_zero_witness :
  outputs avr Step [3; 1; 4] (ChangeLimiter.begin (mkState false 5 6 7 8 9 10))
  = [0; 0; 0].
Proof.
  apply (begin_rests_at_zero avr ltac:(avr_wf) Step [3; 1; 4]
           (mkState false 5 6 7 8 9 10)).
Defined.

Lemma bypass_run_keeps_time_base_witness :
  final avr Step [3; 1; 4] (mkState false (-5) 6 7 8 9 10)
  = mkState false (-5) 6 7 8 10 10 /\
  outputs avr Step [3; 1; 4] (mkState false (-5) 6 7 8 9 10) = [10; 10; 10].
Proof.
  apply (bypass_run_keeps_time_base avr Step [3; 1; 4]
           (mkState false (-5) 6 7 8 9 10) eq_refl).
  discriminate.
Defined.
